(** * MirBFT: checkpoint window, work-item dispatcher, initial network state
      and the mircat argument check, embedded from the Go sources.

    Layout: the Go prelude (slices with their nil value, fixed-width
    integers, panics), then one module per Go package holding the
    translated definitions, then the theorems. *)

From Stdlib Require Import ZArith List Lia.
From Stdlib.Strings Require Import Byte.
From stdpp Require Import base option list gmap strings sorting.

Local Open Scope Z_scope.

(** ** Go prelude *)

#[global] Instance byte_eq_dec : EqDecision byte := Byte.byte_eq_dec.
#[global] Instance byte_countable : Countable byte :=
  inj_countable Byte.to_N Byte.of_N Byte.of_to_N.

Module Go.

(** A Go slice is either [nil] ([None]) or a non-nil sequence, which may
    be empty.  [x != nil] on a slice is [is_set]. *)
Definition slice (A : Type) : Type := option (list A).

Definition elems {A} (s : slice A) : list A := default [] s.

Definition is_set {A} (s : slice A) : bool :=
  match s with Some _ => true | None => false end.

(** [bytes.Equal]: same length and same bytes; a nil argument is
    equivalent to an empty slice. *)
Definition bytes_Equal (a b : slice byte) : bool :=
  bool_decide (elems a = elems b).

(** [string(b)] for [b []byte]: the byte string, [nil] giving the empty
    string. *)
Definition string_of (b : slice byte) : list byte := elems b.

(** Two's complement wrap-around of the signed [w]-bit integers. *)
Definition wrap (w : Z) (z : Z) : Z :=
  (z + 2 ^ (w - 1)) mod 2 ^ w - 2 ^ (w - 1).

(** [int] is 64 bits wide on the platforms the library targets. *)
Definition int (z : Z) : Z := wrap 64 z.
Definition int32 (z : Z) : Z := wrap 32 z.

Definition int_add (a b : Z) : Z := int (a + b).
Definition int_sub (a b : Z) : Z := int (a - b).
Definition int_mul (a b : Z) : Z := int (a * b).
Definition int32_mul (a b : Z) : Z := int32 (a * b).

(** A call either returns or panics with a message. *)
Inductive result (A : Type) : Type :=
| Ok (a : A)
| Panic (msg : string).
Arguments Ok {A} a.
Arguments Panic {A} msg.

End Go.

(** ** Package [internal]: checkpoint_window.go *)

Module internal.

Abbreviation SeqNo := N (only parsing).
Abbreviation NodeID := N (only parsing).
Abbreviation BucketID := N (only parsing).
Abbreviation bytes := (Go.slice byte) (only parsing).

(** Modelled from the spec: the declaration of [EpochConfig] is not among
    the sources; the window reads its fields [F] (an [int]) and [Buckets]
    (ranged over for its keys, the buckets of the epoch). *)
Record EpochConfig : Type := {
  F : Z;
  Buckets : gmap N N
}.

(** [pb.Checkpoint] and the one variant of [pb.Msg] the window builds. *)
Record Checkpoint : Type := {
  Value : Go.slice byte;
  Attestation : Go.slice byte
}.

Inductive Msg : Type :=
| Msg_Checkpoint (c : Checkpoint).

(** Modelled from the spec: [consumer.Actions] is declared outside the
    sources; these are the two fields the window fills, every other field
    keeps its zero value. *)
Record Actions : Type := {
  Broadcast : list Msg;
  Actions_Checkpoint : list N
}.

Definition no_actions : Actions :=
  {| Broadcast := []; Actions_Checkpoint := [] |}.

Record NodeAttestation : Type := {
  Node : N;
  NodeAttestation_Attestation : Go.slice byte
}.

Record CheckpointWindow : Type := {
  Number : N;
  EpochConfig_ : EpochConfig;
  PendingCommits : gset N;
  Values : gmap (list byte) (list NodeAttestation);
  CommittedValue : Go.slice byte
}.

Definition set_PendingCommits (p : gset N) (cw : CheckpointWindow) :=
  {| Number := Number cw; EpochConfig_ := EpochConfig_ cw;
     PendingCommits := p; Values := Values cw;
     CommittedValue := CommittedValue cw |}.

Definition set_Values (v : gmap (list byte) (list NodeAttestation))
    (cw : CheckpointWindow) :=
  {| Number := Number cw; EpochConfig_ := EpochConfig_ cw;
     PendingCommits := PendingCommits cw; Values := v;
     CommittedValue := CommittedValue cw |}.

Definition set_CommittedValue (c : Go.slice byte) (cw : CheckpointWindow) :=
  {| Number := Number cw; EpochConfig_ := EpochConfig_ cw;
     PendingCommits := PendingCommits cw; Values := Values cw;
     CommittedValue := c |}.

(** [cw.Values[key]]: a missing key reads as the nil slice. *)
Definition Values_at (cw : CheckpointWindow) (key : list byte)
    : list NodeAttestation :=
  default [] (Values cw !! key).

(** The loop [for bucketID := range config.Buckets] inserts every key of
    the map into the fresh set. *)
Definition NewCheckpointWindow (number : N) (config : EpochConfig)
    : CheckpointWindow :=
  let pendingCommits :=
    map_fold (fun bucketID _ acc => {[bucketID]} ∪ acc) ∅ (Buckets config) in
  {| Number := number;
     EpochConfig_ := config;
     PendingCommits := pendingCommits;
     Values := ∅;
     CommittedValue := None |}.

Definition Committed (bucket : N) (cw : CheckpointWindow)
    : Actions * CheckpointWindow :=
  let cw := set_PendingCommits (PendingCommits cw ∖ {[bucket]}) cw in
  if bool_decide (0 < Z.of_nat (size (PendingCommits cw))) then
    (no_actions, cw)
  else
    ({| Broadcast := []; Actions_Checkpoint := [Number cw] |}, cw).

Definition ApplyCheckpointMsg (source : N) (value attestation : Go.slice byte)
    (cw : CheckpointWindow) : Actions * CheckpointWindow :=
  let checkpointValueNodes :=
    Values_at cw (Go.string_of value) ++
    [ {| Node := source; NodeAttestation_Attestation := attestation |} ] in
  let cw :=
    set_Values (<[Go.string_of value := checkpointValueNodes]> (Values cw)) cw in
  let cw :=
    if bool_decide (Go.int_add (Go.int_mul 2 (F (EpochConfig_ cw))) 1
                    < Z.of_nat (length checkpointValueNodes))
    then set_CommittedValue value cw
    else cw in
  (no_actions, cw).

Definition disagreement : string :=
  "my checkpoint disagrees with the committed network view of this checkpoint".

Definition ApplyCheckpointResult (value attestation : Go.slice byte)
    (cw : CheckpointWindow) : Go.result (Actions * CheckpointWindow) :=
  if Go.is_set (CommittedValue cw)
     && negb (Go.bytes_Equal value (CommittedValue cw))
  then Go.Panic disagreement
  else Go.Ok
    ({| Broadcast :=
          [ Msg_Checkpoint {| Value := value; Attestation := attestation |} ];
        Actions_Checkpoint := [] |}, cw).

(** A peer's checkpoint message as the caller hands it over. *)
Record CheckpointMsg : Type := {
  msg_source : N;
  msg_value : Go.slice byte;
  msg_attestation : Go.slice byte
}.

Definition step (cw : CheckpointWindow) (m : CheckpointMsg) : CheckpointWindow :=
  snd (ApplyCheckpointMsg (msg_source m) (msg_value m) (msg_attestation m) cw).

(** A sequence of [ApplyCheckpointMsg] calls on one window. *)
Definition apply_all (cw : CheckpointWindow) (ms : list CheckpointMsg)
    : CheckpointWindow :=
  fold_left step ms cw.

(** *** Vocabulary of the claims about the window *)

(** The messages of a run that attest the byte string [v]. *)
Definition attesting (v : list byte) (ms : list CheckpointMsg)
    : list CheckpointMsg :=
  filter (fun m => Go.string_of (msg_value m) = v) ms.

(** How many attestations for [v] a run applied, one per call. *)
Definition attestations_for (v : list byte) (ms : list CheckpointMsg) : nat :=
  length (attesting v ms).

(** How many different nodes attested [v] in a run. *)
Definition distinct_sources_for (v : list byte) (ms : list CheckpointMsg)
    : nat :=
  size (list_to_set (msg_source <$> attesting v ms) : gset N).

(** The number of attestations the window holds for the value of [m]. *)
Definition held_for (cw : CheckpointWindow) (m : CheckpointMsg) : Z :=
  Z.of_nat (length (Values_at cw (Go.string_of (msg_value m)))).

(** The action list holding the single checkpoint request for [seq]. *)
Definition checkpoint_action (seq : N) : Actions :=
  {| Broadcast := []; Actions_Checkpoint := [seq] |}.

(** The action list holding the single broadcast of a checkpoint message. *)
Definition checkpoint_broadcast (value attestation : Go.slice byte) : Actions :=
  {| Broadcast :=
       [ Msg_Checkpoint {| Value := value; Attestation := attestation |} ];
     Actions_Checkpoint := [] |}.

(** [f] is a fault bound for which [2*f+1] stays inside [int]. *)
Definition fault_bound (cfg : EpochConfig) : Prop :=
  0 <= F cfg < 2 ^ 62.

(** *** Runs of the other methods *)

(** The entry [ApplyCheckpointMsg] stores for the message [m]. *)
Definition attestation_of (m : CheckpointMsg) : NodeAttestation :=
  {| Node := msg_source m; NodeAttestation_Attestation := msg_attestation m |}.

(** A sequence of [Committed] calls on one window: the window reached and
    the actions of the last call, if there was one. *)
Definition commit_all (cw : CheckpointWindow) (buckets : list N)
    : option Actions * CheckpointWindow :=
  fold_left (fun st bucket =>
               let r := Committed bucket (snd st) in (Some (fst r), snd r))
            buckets (None, cw).

(** *** Scenario data *)

(** The configuration and the messages of the f=1 scenarios. *)
Definition one_fault : EpochConfig :=
  {| F := 1; Buckets := {[ 0%N := 0%N; 1%N := 1%N; 2%N := 2%N; 3%N := 3%N ]} |}.

Definition attest (node : N) (v : list byte) : CheckpointMsg :=
  {| msg_source := node; msg_value := Some v; msg_attestation := Some [] |}.

End internal.

(** ** Package [mirbft]: the work items and the initial network state *)

Module mirbft.

(** Modelled from the spec: the variants of the [msgs.Msg] oneof, declared
    in the generated protobuf code; the list is the one of the protocol
    messages in the spec and of [allMsgTypes] in mircat. *)
Inductive Msg_Type : Type :=
| Msg_Preprepare | Msg_Prepare | Msg_Commit | Msg_Checkpoint
| Msg_EpochChange | Msg_EpochChangeAck | Msg_Suspect
| Msg_NewEpoch | Msg_NewEpochEcho | Msg_NewEpochReady
| Msg_FetchBatch | Msg_ForwardBatch | Msg_FetchRequest
| Msg_RequestAck | Msg_ForwardRequest.

#[global] Instance Msg_Type_eq_dec : EqDecision Msg_Type.
Proof. solve_decision. Defined.

(** The five action streams and the two event streams of [WorkItems]. *)
Inductive ActionStream : Type := WAL | Net | Hash | Client | App.
Inductive EventStream : Type := ReqStore | Result.

#[global] Instance ActionStream_eq_dec : EqDecision ActionStream.
Proof. solve_decision. Defined.
#[global] Instance EventStream_eq_dec : EqDecision EventStream.
Proof. solve_decision. Defined.

Section WorkItems.

(** The dispatcher never looks inside a variant beyond the message type
    of a send, nor inside an event: their contents stay abstract. *)
Variable Payload : Type.
Variable Event : Type.

Record Msg : Type := { Msg_type : Msg_Type; Msg_body : Payload }.

Record Send : Type := { Targets : list N; Send_Msg : Msg }.

(** Modelled from the spec: the variants of the [state.Action] oneof,
    in the order of the switch of [AddStateMachineResults]. *)
Inductive Action : Type :=
| Action_Send (send : Send)
| Action_Hash (hash : Payload)
| Action_AppendWriteAhead (entry : Payload)
| Action_TruncateWriteAhead (truncate : Payload)
| Action_Commit (batch : Payload)
| Action_Checkpoint (checkpoint : Payload)
| Action_AllocatedRequest (request : Payload)
| Action_CorrectRequest (ack : Payload)
| Action_StateApplied (applied : Payload)
| Action_ForwardRequest (forward : Payload)
| Action_StateTransfer (target : Payload).

(** Modelled from the spec: [statemachine.ActionList] and
    [statemachine.EventList] are the ordered sequences of the data model;
    [PushBack] adds one element at the back, [PushBackList] all the
    elements of another list in their order, and the iterator walks from
    the front.  The lists handed to the methods are non-nil pointers. *)
Definition ActionList : Type := list Action.
Definition EventList : Type := list Event.

(** The fields are pointers: [None] is the nil pointer. *)
Record WorkItems : Type := {
  walActions : option ActionList;
  netActions : option ActionList;
  hashActions : option ActionList;
  clientActions : option ActionList;
  appActions : option ActionList;
  reqStoreEvents : option EventList;
  resultEvents : option EventList
}.

Definition NewWorkItems : WorkItems :=
  {| walActions := Some []; netActions := Some []; hashActions := Some [];
     clientActions := Some []; appActions := Some [];
     reqStoreEvents := Some []; resultEvents := Some [] |}.

Definition actions_field (s : ActionStream) (wi : WorkItems)
    : option ActionList :=
  match s with
  | WAL => walActions wi
  | Net => netActions wi
  | Hash => hashActions wi
  | Client => clientActions wi
  | App => appActions wi
  end.

Definition events_field (s : EventStream) (wi : WorkItems)
    : option EventList :=
  match s with
  | ReqStore => reqStoreEvents wi
  | Result => resultEvents wi
  end.

Definition set_actions_field (s : ActionStream) (v : option ActionList)
    (wi : WorkItems) : WorkItems :=
  {| walActions := if decide (s = WAL) then v else walActions wi;
     netActions := if decide (s = Net) then v else netActions wi;
     hashActions := if decide (s = Hash) then v else hashActions wi;
     clientActions := if decide (s = Client) then v else clientActions wi;
     appActions := if decide (s = App) then v else appActions wi;
     reqStoreEvents := reqStoreEvents wi;
     resultEvents := resultEvents wi |}.

Definition set_events_field (s : EventStream) (v : option EventList)
    (wi : WorkItems) : WorkItems :=
  {| walActions := walActions wi;
     netActions := netActions wi;
     hashActions := hashActions wi;
     clientActions := clientActions wi;
     appActions := appActions wi;
     reqStoreEvents := if decide (s = ReqStore) then v else reqStoreEvents wi;
     resultEvents := if decide (s = Result) then v else resultEvents wi |}.

(** Methods run on the receiver [wi]; a returned list pointer is the
    field it points into, so that a push through it lands in [wi]. *)
Definition M (A : Type) : Type := WorkItems -> A * WorkItems.

#[global] Instance M_ret : MRet M := fun A (a : A) wi => (a, wi).
#[global] Instance M_bind : MBind M :=
  fun A B (k : A -> M B) (m : M A) wi => let (a, wi') := m wi in k a wi'.
Definition exec {A} (m : M A) (wi : WorkItems) : WorkItems := snd (m wi).

Fixpoint for_each {A} (l : list A) (body : A -> M unit) : M unit :=
  match l with
  | [] => mret tt
  | x :: l' => _ ← body x; for_each l' body
  end.

Definition ClearReqStoreEvents : M unit :=
  fun wi => (tt, set_events_field ReqStore (Some []) wi).
Definition ClearResultEvents : M unit :=
  fun wi => (tt, set_events_field Result (Some []) wi).

(** The accessors: a nil field is replaced by a fresh empty list, and
    the pointer held by the field is returned. *)
Definition actions_accessor (s : ActionStream) : M ActionStream :=
  fun wi =>
    match actions_field s wi with
    | None => (s, set_actions_field s (Some []) wi)
    | Some _ => (s, wi)
    end.

Definition events_accessor (s : EventStream) : M EventStream :=
  fun wi =>
    match events_field s wi with
    | None => (s, set_events_field s (Some []) wi)
    | Some _ => (s, wi)
    end.

Definition WALActions : M ActionStream := actions_accessor WAL.
Definition NetActions : M ActionStream := actions_accessor Net.
Definition HashActions : M ActionStream := actions_accessor Hash.
Definition ClientActions : M ActionStream := actions_accessor Client.
Definition AppActions : M ActionStream := actions_accessor App.
Definition ReqStoreEvents : M EventStream := events_accessor ReqStore.
Definition ResultEvents : M EventStream := events_accessor Result.

(** [l.PushBack(action)] and [l.PushBackList(other)] through the pointer
    [l]. *)
Definition PushBack (l : ActionStream) (action : Action) : M unit :=
  fun wi =>
    (tt, set_actions_field l
           ((fun old => old ++ [action]) <$> actions_field l wi) wi).

Definition PushBackList (l : ActionStream) (other : ActionList) : M unit :=
  fun wi =>
    (tt, set_actions_field l
           ((fun old => old ++ other) <$> actions_field l wi) wi).

Definition Events_PushBackList (l : EventStream) (other : EventList)
    : M unit :=
  fun wi =>
    (tt, set_events_field l
           ((fun old => old ++ other) <$> events_field l wi) wi).

Definition AddHashResults (events : EventList) : M unit :=
  l ← ResultEvents; Events_PushBackList l events.

Definition AddNetResults (events : EventList) : M unit :=
  l ← ResultEvents; Events_PushBackList l events.

Definition AddAppResults (events : EventList) : M unit :=
  l ← ResultEvents; Events_PushBackList l events.

Definition AddClientResults (events : EventList) : M unit :=
  l ← ReqStoreEvents; Events_PushBackList l events.

Definition AddWALResults (actions : ActionList) : M unit :=
  l ← NetActions; PushBackList l actions.

Definition AddReqStoreResults (events : EventList) : M unit :=
  l ← ResultEvents; Events_PushBackList l events.

(** The body of the loop of [AddStateMachineResults]. *)
Definition dispatch (action : Action) : M unit :=
  match action with
  | Action_Send send =>
      let walDependent :=
        match Msg_type (Send_Msg send) with
        | Msg_RequestAck => false
        | Msg_Checkpoint => false
        | Msg_FetchBatch => false
        | Msg_ForwardBatch => false
        | _ => true
        end in
      if walDependent
      then l ← WALActions; PushBack l action
      else l ← NetActions; PushBack l action
  | Action_Hash _ => l ← HashActions; PushBack l action
  | Action_AppendWriteAhead _ => l ← WALActions; PushBack l action
  | Action_TruncateWriteAhead _ => l ← WALActions; PushBack l action
  | Action_Commit _ => l ← AppActions; PushBack l action
  | Action_Checkpoint _ => l ← AppActions; PushBack l action
  | Action_AllocatedRequest _ => l ← ClientActions; PushBack l action
  | Action_CorrectRequest _ => l ← ClientActions; PushBack l action
  | Action_StateApplied _ => l ← ClientActions; PushBack l action
  | Action_ForwardRequest _ => mret tt
  | Action_StateTransfer _ => l ← AppActions; PushBack l action
  end.

Definition AddStateMachineResults (actions : ActionList) : M unit :=
  for_each actions dispatch.

(** What a worker finds in a stream: the elements behind the pointer,
    none when the pointer is nil. *)
Definition actions_of (s : ActionStream) (wi : WorkItems) : list Action :=
  default [] (actions_field s wi).

Definition events_of (s : EventStream) (wi : WorkItems) : list Event :=
  default [] (events_field s wi).

(** The classification table of the specification (section 4.4), to be
    compared with [dispatch]. *)
Definition net_msg_types : list Msg_Type :=
  [Msg_RequestAck; Msg_Checkpoint; Msg_FetchBatch; Msg_ForwardBatch].

Definition spec_stream (a : Action) : option ActionStream :=
  match a with
  | Action_AppendWriteAhead _ | Action_TruncateWriteAhead _ => Some WAL
  | Action_Send send =>
      if bool_decide (Msg_type (Send_Msg send) ∈ net_msg_types)
      then Some Net else Some WAL
  | Action_Hash _ => Some Hash
  | Action_Commit _ | Action_Checkpoint _ | Action_StateTransfer _ => Some App
  | Action_AllocatedRequest _ | Action_CorrectRequest _
  | Action_StateApplied _ => Some Client
  | Action_ForwardRequest _ => None
  end.

Definition is_ForwardRequest (a : Action) : bool :=
  match a with Action_ForwardRequest _ => true | _ => false end.

(** *** Vocabulary of the claims about the dispatcher *)

(** What a call added to a stream: the elements of [wi'] behind those
    [wi] already held. *)
Definition appended_to (s : ActionStream) (wi wi' : WorkItems)
    : list Action :=
  drop (length (actions_of s wi)) (actions_of s wi').

(** The stream the loop body sends [a] to: the one [a] is found in
    after it alone has been dispatched onto empty work items. *)
Definition routed_to (a : Action) (s : ActionStream) : Prop :=
  a ∈ actions_of s (snd (dispatch a NewWorkItems)).

(** From [wi] to [wi'] the action stream [s] grew by [extra] at its
    back, and no other stream changed. *)
Definition only_actions_grow (s : ActionStream) (extra : list Action)
    (wi wi' : WorkItems) : Prop :=
  (forall s', actions_of s' wi' =
              actions_of s' wi ++ if decide (s' = s) then extra else [])
  /\ (forall e, events_of e wi' = events_of e wi).

(** From [wi] to [wi'] the event stream [e] grew by [extra] at its
    back, and no other stream changed. *)
Definition only_events_grow (e : EventStream) (extra : list Event)
    (wi wi' : WorkItems) : Prop :=
  (forall e', events_of e' wi' =
              events_of e' wi ++ if decide (e' = e) then extra else [])
  /\ (forall s, actions_of s wi' = actions_of s wi).

(** *** Further vocabulary: zero value, clearing, counting *)

(** The zero value [WorkItems{}]: every pointer nil. *)
Definition zero_WorkItems : WorkItems :=
  {| walActions := None; netActions := None; hashActions := None;
     clientActions := None; appActions := None;
     reqStoreEvents := None; resultEvents := None |}.


(** How many actions the five streams hold together. *)
Definition total_actions (wi : WorkItems) : nat :=
  (length (actions_of WAL wi) + length (actions_of Net wi)
   + length (actions_of Hash wi) + length (actions_of Client wi)
   + length (actions_of App wi))%nat.

(** Two work items a worker cannot tell apart: every stream holds the same
    elements, whether behind a nil pointer or not. *)
Definition same_streams (wi1 wi2 : WorkItems) : Prop :=
  (forall s, actions_of s wi1 = actions_of s wi2)
  /\ (forall e, events_of e wi1 = events_of e wi2).

End WorkItems.

Arguments Action_Send {Payload} send.
Arguments Action_Hash {Payload} hash.
Arguments Action_AppendWriteAhead {Payload} entry.
Arguments Action_TruncateWriteAhead {Payload} truncate.
Arguments Action_Commit {Payload} batch.
Arguments Action_Checkpoint {Payload} checkpoint.
Arguments Action_AllocatedRequest {Payload} request.
Arguments Action_CorrectRequest {Payload} ack.
Arguments Action_StateApplied {Payload} applied.
Arguments Action_ForwardRequest {Payload} forward.
Arguments Action_StateTransfer {Payload} target.
Arguments Build_Msg {Payload} _ _.
Arguments Msg_type {Payload} _.
Arguments Msg_body {Payload} _.
Arguments Build_Send {Payload} _ _.
Arguments Targets {Payload} _.
Arguments Send_Msg {Payload} _.
Arguments Build_WorkItems {Payload Event} _ _ _ _ _ _ _.
Arguments walActions {Payload Event} _.
Arguments netActions {Payload Event} _.
Arguments hashActions {Payload Event} _.
Arguments clientActions {Payload Event} _.
Arguments appActions {Payload Event} _.
Arguments reqStoreEvents {Payload Event} _.
Arguments resultEvents {Payload Event} _.
Arguments actions_field {Payload Event} s wi.
Arguments events_field {Payload Event} s wi.
Arguments actions_of {Payload Event} s wi.
Arguments events_of {Payload Event} s wi.
Arguments exec {Payload Event A} m wi.
Arguments AddStateMachineResults {Payload Event} actions _.
Arguments AddHashResults {Payload Event} events _.
Arguments AddNetResults {Payload Event} events _.
Arguments AddAppResults {Payload Event} events _.
Arguments AddClientResults {Payload Event} events _.
Arguments AddWALResults {Payload Event} actions _.
Arguments AddReqStoreResults {Payload Event} events _.
Arguments dispatch {Payload Event} action _.
Arguments spec_stream {Payload} a.
Arguments is_ForwardRequest {Payload} a.
Arguments appended_to {Payload Event} s wi wi'.
Arguments routed_to {Payload} Event a s.
Arguments only_actions_grow {Payload Event} s extra wi wi'.
Arguments only_events_grow {Payload Event} e extra wi wi'.
Arguments total_actions {Payload Event} wi.
Arguments same_streams {Payload Event} wi1 wi2.

(** *** Scenario data for the dispatcher *)

(** The single acknowledgement of scenario 6 and a forwarded request. *)
Definition request_ack : Action unit :=
  Action_Send {| Targets := [1%N];
                 Send_Msg := {| Msg_type := Msg_RequestAck; Msg_body := tt |} |}.

Definition preprepare : Action unit :=
  Action_Send {| Targets := [1%N];
                 Send_Msg := {| Msg_type := Msg_Preprepare; Msg_body := tt |} |}.

Definition forward_request : Action unit := Action_ForwardRequest tt.

Definition append_entry : Action unit := Action_AppendWriteAhead tt.

Definition hash_request : Action unit := Action_Hash tt.

(** *** mirbft.go: [StandardInitialNetworkState] *)

Record NetworkState_Client : Type := {
  Id : Z;             (* uint64 *)
  Width : Z;          (* uint32 *)
  LowWatermark : Z    (* uint64 *)
}.

Record NetworkState_Config : Type := {
  Nodes : list Z;            (* []uint64 *)
  F : Z;                     (* int32 *)
  NumberOfBuckets : Z;       (* int32 *)
  CheckpointInterval : Z;    (* int32 *)
  MaxEpochLength : Z         (* uint64 *)
}.

Record NetworkState : Type := {
  Config : NetworkState_Config;
  Clients : list NetworkState_Client
}.

(** [for i := 0; i < n; i++] collecting [body i]: no iteration when
    [n <= 0]. *)
Definition count_up {A} (n : Z) (body : Z -> A) : list A :=
  map (fun i => body (Z.of_nat i)) (seq 0 (Z.to_nat n)).

(** [nodeCount] and [clientCount] are Go [int]s.  [make] panics on a
    negative length; the limit the allocator puts on a large one is not
    modelled. *)
Definition StandardInitialNetworkState (nodeCount clientCount : Z)
    : Go.result NetworkState :=
  let nodes := count_up nodeCount (fun i => i) in
  let numberOfBuckets := Go.int32 nodeCount in
  let checkpointInterval := Go.int32_mul numberOfBuckets 5 in
  let maxEpochLength := Go.int32_mul checkpointInterval 10 in
  if bool_decide (clientCount < 0)
  then Go.Panic "makeslice: len out of range"
  else
    let clients :=
      count_up clientCount
        (fun i => {| Id := i; Width := 100; LowWatermark := 0 |}) in
    Go.Ok
      {| Config :=
           {| Nodes := nodes;
              F := Go.int32 (Z.quot (Go.int_sub nodeCount 1) 3);
              NumberOfBuckets := numberOfBuckets;
              CheckpointInterval := checkpointInterval;
              MaxEpochLength := maxEpochLength mod 2 ^ 64 |};
         Clients := clients |}.

End mirbft.

(** ** Package [main] of mircat: the argument check of [parseArgs] *)

Module mircat.

Section parseArgs.

(** The open input file is only handed on. *)
Variable File : Type.

(** What [app.Parse] leaves behind the flag pointers: a flag that was
    not given leaves its list nil. *)
Record flags : Type := {
  flag_input : File;
  flag_interactive : bool;
  flag_nodeID : Go.slice N;
  flag_eventType : Go.slice string;
  flag_notEventType : Go.slice string;
  flag_stepType : Go.slice string;
  flag_notStepType : Go.slice string;
  flag_verboseText : bool;
  flag_statusIndex : Go.slice N
}.

Record arguments : Type := {
  input : File;
  interactive : bool;
  nodeIDs : Go.slice N;
  eventTypes : Go.slice string;
  notEventTypes : Go.slice string;
  stepTypes : Go.slice string;
  notStepTypes : Go.slice string;
  statusIndices : Go.slice N;
  verboseText : bool
}.

(** The returned pair of an arguments pointer and an error: exactly one
    of the two is non-nil on every return of [parseArgs]. *)
Inductive outcome : Type :=
| Accepted (a : arguments)
| Rejected (err : string).

(** kingpin's parser, a library outside the repository: it fills the
    flags or fails with its own error. *)
Variable app_Parse : list string -> flags + string.

Definition parseArgs (args : list string) : outcome :=
  match app_Parse args with
  | inr err => Rejected err
  | inl fl =>
      if Go.is_set (flag_eventType fl) && Go.is_set (flag_notEventType fl)
      then Rejected "cannot set both --eventType and --notEventType"
      else if Go.is_set (flag_stepType fl) && Go.is_set (flag_notStepType fl)
      then Rejected "cannot set both --stepType and --notStepType"
      else if Go.is_set (flag_statusIndex fl) && negb (flag_interactive fl)
      then Rejected "cannot set status indices for non-interactive playback"
      else Accepted
        {| input := flag_input fl;
           interactive := flag_interactive fl;
           nodeIDs := flag_nodeID fl;
           eventTypes := flag_eventType fl;
           notEventTypes := flag_notEventType fl;
           stepTypes := flag_stepType fl;
           notStepTypes := flag_notStepType fl;
           verboseText := flag_verboseText fl;
           statusIndices := flag_statusIndex fl |}
  end.

(** The flag values an accepted run has to reproduce. *)
Definition reproduces (a : arguments) (fl : flags) : Prop :=
  input a = flag_input fl /\
  interactive a = flag_interactive fl /\
  nodeIDs a = flag_nodeID fl /\
  eventTypes a = flag_eventType fl /\
  notEventTypes a = flag_notEventType fl /\
  stepTypes a = flag_stepType fl /\
  notStepTypes a = flag_notStepType fl /\
  verboseText a = flag_verboseText fl /\
  statusIndices a = flag_statusIndex fl.

(** The three combinations the claim lists. *)
Definition both_event_filters (fl : flags) : Prop :=
  flag_eventType fl <> None /\ flag_notEventType fl <> None.
Definition both_step_filters (fl : flags) : Prop :=
  flag_stepType fl <> None /\ flag_notStepType fl <> None.
Definition status_without_interactive (fl : flags) : Prop :=
  flag_statusIndex fl <> None /\ flag_interactive fl = false.

End parseArgs.

Arguments Accepted {File} a.
Arguments Rejected {File} err.

(** *** mircat: the filters *)

Definition allEventTypes : list string :=
  [ "Initialize"; "LoadEntry"; "CompleteInitialization"; "Tick"; "Step";
    "Propose"; "AddResults"; "ActionsReceived" ].

Definition allMsgTypes : list string :=
  [ "Preprepare"; "Prepare"; "Commit"; "Checkpoint"; "EpochChange";
    "EpochChangeAck"; "Suspect"; "NewEpoch"; "NewEpochEcho"; "NewEpochReady";
    "FetchBatch"; "ForwardBatch"; "FetchRequest"; "RequestAck";
    "ForwardRequest" ].

(** The two loops of [excludeByType]: each returns from inside the loop
    at the first name equal to [value]. *)
Fixpoint include_loop (value : string) (include : list string) : bool :=
  match include with
  | [] => true
  | includeName :: rest =>
      if decide (includeName = value) then false else include_loop value rest
  end.

Fixpoint exclude_loop (value : string) (exclude : list string) : bool :=
  match exclude with
  | [] => false
  | excludeName :: rest =>
      if decide (excludeName = value) then true else exclude_loop value rest
  end.

Definition excludeByType (value : string) (include exclude : Go.slice string)
    : bool :=
  match include with
  | Some names => include_loop value names
  | None => exclude_loop value (Go.elems exclude)
  end.

Fixpoint nodeID_loop (NodeId : N) (nodeIDs : list N) : bool :=
  match nodeIDs with
  | [] => true
  | nodeID :: rest =>
      if decide (nodeID = NodeId) then false else nodeID_loop NodeId rest
  end.

(** [excludedByNodeID], on the node id of the recorded event. *)
Definition excludedByNodeID (NodeId : N) (nodeIDs : Go.slice N) : bool :=
  match nodeIDs with
  | None => false
  | Some ids => nodeID_loop NodeId ids
  end.

(** Modelled from the spec: the variants of the [pb.StateEvent] oneof, as
    the switches of [shouldPrint] list them; a step carries the type of
    its message, [None] standing for a oneof that is not set. *)
Inductive StateEvent_Type : Type :=
| StateEvent_Initialize
| StateEvent_LoadEntry
| StateEvent_CompleteInitialization
| StateEvent_Tick
| StateEvent_Propose
| StateEvent_AddResults
| StateEvent_ActionsReceived
| StateEvent_Step (msg : option mirbft.Msg_Type)
| StateEvent_Transfer.

(** The first switch of [shouldPrint]. *)
Definition eventTypeText (t : StateEvent_Type) : string :=
  match t with
  | StateEvent_Initialize => "Initialize"
  | StateEvent_LoadEntry => "LoadEntry"
  | StateEvent_CompleteInitialization => "CompleteInitialization"
  | StateEvent_Tick => "Tick"
  | StateEvent_Propose => "Propose"
  | StateEvent_AddResults => "AddResults"
  | StateEvent_ActionsReceived => "ActionsReceived"
  | StateEvent_Step _ => "Step"
  | StateEvent_Transfer => "StateTransfer"
  end.

(** The switch on the message of a step. *)
Definition stepTypeText (t : mirbft.Msg_Type) : string :=
  match t with
  | mirbft.Msg_Preprepare => "Preprepare"
  | mirbft.Msg_Prepare => "Prepare"
  | mirbft.Msg_Commit => "Commit"
  | mirbft.Msg_Checkpoint => "Checkpoint"
  | mirbft.Msg_Suspect => "Suspect"
  | mirbft.Msg_EpochChange => "EpochChange"
  | mirbft.Msg_EpochChangeAck => "EpochChangeAck"
  | mirbft.Msg_NewEpoch => "NewEpoch"
  | mirbft.Msg_NewEpochEcho => "NewEpochEcho"
  | mirbft.Msg_NewEpochReady => "NewEpochReady"
  | mirbft.Msg_FetchBatch => "FetchBatch"
  | mirbft.Msg_ForwardBatch => "ForwardBatch"
  | mirbft.Msg_FetchRequest => "FetchRequest"
  | mirbft.Msg_ForwardRequest => "ForwardRequest"
  | mirbft.Msg_RequestAck => "RequestAck"
  end.

(** A name passes a pair of filters: it is listed by the including filter
    when that one is given, and not listed by the excluding one
    otherwise. *)
Definition selected (include exclude : Go.slice string) (name : string)
    : Prop :=
  match include with
  | Some names => name ∈ names
  | None => name ∉ Go.elems exclude
  end.

(** Two event types are of the same kind when they are the same variant,
    whatever the message of a step. *)
Definition same_kind (t t' : StateEvent_Type) : Prop :=
  match t, t' with
  | StateEvent_Step _, StateEvent_Step _ => True
  | _, _ => t = t'
  end.

Section playback.

Variable File : Type.

(** The contents of an event beyond its type are only handed on. *)
Variable Payload : Type.

Record StateEvent : Type := {
  StateEvent_type : option StateEvent_Type;
  StateEvent_body : Payload
}.

Record RecordedEvent : Type := {
  NodeId : N;
  RecordedEvent_StateEvent : StateEvent
}.

Definition shouldPrint (a : arguments File) (event : RecordedEvent)
    : Go.result bool :=
  match StateEvent_type (RecordedEvent_StateEvent event) with
  | None => Go.Panic "Unknown event type '<nil>'"
  | Some t =>
      if excludeByType (eventTypeText t) (eventTypes File a) (notEventTypes File a)
      then Go.Ok false
      else
        match t with
        | StateEvent_Step None => Go.Panic "unknown message type"
        | StateEvent_Step (Some ty) =>
            if excludeByType (stepTypeText ty) (stepTypes File a)
                 (notStepTypes File a)
            then Go.Ok false
            else Go.Ok true
        | _ => Go.Ok true
        end
  end.

(** *** mircat: playing a log *)

(** The state machine of the library, its text formats and the log reader
    are code outside these sources.  A machine is made for a node (its
    logger is named after it) and applies events, which may panic. *)
Variable Machine : Type.
Variable new_machine : N -> Machine.
Variable ApplyEvent : Machine -> StateEvent -> Go.result Machine.
Variable Status_Pretty : Machine -> string.
Variable textFormat : RecordedEvent -> bool -> string + string.

(** The message of the panic on an event of a node without a machine. *)
Variable malformed_log : N -> option StateEvent_Type -> string.

(** What the reader delivers: the events up to the first error of
    [ReadEvent], which is [io.EOF] ([None]) or another error. *)
Record event_log : Type := {
  log_events : list RecordedEvent;
  log_error : option string
}.

Variable NewReader : File -> event_log + string.

Definition nil_dereference : string :=
  "runtime error: invalid memory address or nil pointer dereference".

(** [stateMachines.apply].  The map holds one machine per node; the
    execution time kept beside each machine is a reading of the clock and
    is left out. *)
Definition apply (nodes : gmap N Machine) (event : RecordedEvent)
    : Go.result (gmap N Machine) :=
  let found : Go.result (Machine * gmap N Machine) :=
    match StateEvent_type (RecordedEvent_StateEvent event) with
    | Some StateEvent_Initialize =>
        let node := new_machine (NodeId event) in
        Go.Ok (node, <[NodeId event := node]> (delete (NodeId event) nodes))
    | t =>
        match nodes !! NodeId event with
        | Some node => Go.Ok (node, nodes)
        | None => Go.Panic (malformed_log (NodeId event) t)
        end
    end in
  match found with
  | Go.Panic msg => Go.Panic msg
  | Go.Ok (node, nodes) =>
      match ApplyEvent node (RecordedEvent_StateEvent event) with
      | Go.Panic msg => Go.Panic msg
      | Go.Ok node => Go.Ok (<[NodeId event := node]> nodes)
      end
  end.

(** What [execute] writes: the line of an event with its index, the status
    of a node, and the closing line of a node (whose duration is a clock
    reading). *)
Inductive output : Type :=
| EventLine (index : N) (text : string)
| StatusBlock (pretty : string)
| Completed (nodeID : N).

Inductive termination : Type :=
| Returned (err : option string)
| Panicked (msg : string).

(** The reading loop of [execute], from the event after [index] on; at the
    end of the log it hands the machines to the closing part. *)
Fixpoint execute_loop (a : arguments File) (statusIndices : gset N)
    (events : list RecordedEvent) (log_error : option string)
    (index : N) (nodes : gmap N Machine) (out : list output)
    : list output * (termination + gmap N Machine) :=
  match events with
  | [] =>
      match log_error with
      | None => (out, inr nodes)
      | Some err =>
          (out, inl (Returned (Some ("failed reading input: " +:+ err))))
      end
  | event :: rest =>
      let index := (index + 1)%N in
      if excludedByNodeID (NodeId event) (nodeIDs File a)
      then execute_loop a statusIndices rest log_error index nodes out
      else
        let statusIndex := bool_decide (index ∈ statusIndices) in
        let wanted : Go.result bool :=
          if statusIndex then Go.Ok true else shouldPrint a event in
        match wanted with
        | Go.Panic msg => (out, inl (Panicked msg))
        | Go.Ok print =>
            let written : list output + string :=
              if print
              then match textFormat event (negb (verboseText File a)) with
                   | inl text => inl (out ++ [EventLine index text])
                   | inr err => inr err
                   end
              else inl out in
            match written with
            | inr err =>
                (out, inl (Returned
                             (Some ("could not marshal event: " +:+ err))))
            | inl out =>
                if interactive File a
                then
                  match apply nodes event with
                  | Go.Panic msg => (out, inl (Panicked msg))
                  | Go.Ok nodes =>
                      if statusIndex
                      then
                        match nodes !! NodeId event with
                        | Some node =>
                            execute_loop a statusIndices rest log_error index
                              nodes (out ++ [StatusBlock (Status_Pretty node)])
                        | None => (out, inl (Panicked nil_dereference))
                        end
                      else execute_loop a statusIndices rest log_error index
                             nodes out
                  end
                else execute_loop a statusIndices rest log_error index nodes out
            end
        end
  end.

(** The closing loop: one line per node id, read off the machine of the
    node. *)
Fixpoint execute_closing (nodes : gmap N Machine) (nodeIDs : list N)
    (out : list output) : list output * termination :=
  match nodeIDs with
  | [] => (out, Returned None)
  | nodeID :: rest =>
      match nodes !! nodeID with
      | Some _ => execute_closing nodes rest (out ++ [Completed nodeID])
      | None => (out, Panicked nil_dereference)
      end
  end.

(** [execute]: what was written to the output and how the call ended.
    The index is a uint64 in the source; no log is long enough to wrap
    it.  The deferred closing of the input and the creation of the logger
    in [newStateMachines] (which is taken to succeed) leave no trace
    here. *)
Definition execute (a : arguments File) : list output * termination :=
  match NewReader (input File a) with
  | inr err => ([], Returned (Some ("bad input file: " +:+ err)))
  | inl reader =>
      let statusIndices : gset N := list_to_set (Go.elems (statusIndices File a)) in
      match execute_loop a statusIndices (log_events reader) (log_error reader)
              0%N ∅ [] with
      | (out, inl stop) => (out, stop)
      | (out, inr nodes) =>
          if interactive File a
          then
            let nodeIDs :=
              match nodeIDs File a with
              | Some ids => ids
              | None => merge_sort N.le (elements (dom nodes))
              end in
            execute_closing nodes nodeIDs out
          else (out, Returned None)
      end
  end.

(** What an event line has to be when the loop runs over [events] from
    the index [i0] on: the line of the event at some position [k]. *)
Definition line_of_log (a : arguments File) (marks : gset N)
    (events : list RecordedEvent) (i0 : N) (o : output) : Prop :=
  match o with
  | EventLine index text =>
      exists k event,
        index = (i0 + 1 + N.of_nat k)%N
        /\ events !! k = Some event
        /\ excludedByNodeID (NodeId event) (nodeIDs File a) = false
        /\ textFormat event (negb (verboseText File a)) = inl text
        /\ (index ∈ marks \/ shouldPrint a event = Go.Ok true)
  | _ => True
  end.

End playback.

(** *** Scenario data *)

(** The flags a parser finds in [--interactive --statusIndex 3]. *)
Definition interactive_status : flags unit :=
  {| flag_input := tt; flag_interactive := true; flag_nodeID := None;
     flag_eventType := None; flag_notEventType := None;
     flag_stepType := None; flag_notStepType := None;
     flag_verboseText := false; flag_statusIndex := Some [3%N] |}.

(** A step of a Prepare message recorded at node 1, and flags asking for
    steps of Prepare messages only. *)
Definition prepare_step : RecordedEvent unit :=
  {| NodeId := 1;
     RecordedEvent_StateEvent :=
       {| StateEvent_type := Some (StateEvent_Step (Some mirbft.Msg_Prepare));
          StateEvent_body := tt |} |}.

Definition transfer_event : RecordedEvent unit :=
  {| NodeId := 1;
     RecordedEvent_StateEvent :=
       {| StateEvent_type := Some StateEvent_Transfer; StateEvent_body := tt |} |}.

Definition only_prepare_steps : arguments unit :=
  {| input := tt; interactive := false; nodeIDs := None;
     eventTypes := Some ["Step"]; notEventTypes := None;
     stepTypes := Some ["Prepare"]; notStepTypes := None;
     statusIndices := None; verboseText := false |}.

Definition initialize_event : RecordedEvent unit :=
  {| NodeId := 1;
     RecordedEvent_StateEvent :=
       {| StateEvent_type := Some StateEvent_Initialize; StateEvent_body := tt |} |}.

(** Flags asking to play the log for the nodes 1 and 7. *)
Definition play_two_nodes : arguments unit :=
  {| input := tt; interactive := true; nodeIDs := Some [1%N; 7%N];
     eventTypes := None; notEventTypes := None;
     stepTypes := None; notStepTypes := None;
     statusIndices := None; verboseText := false |}.

(** A log of node 1, read to its end, played on machines that accept
    every event and with a formatter that always succeeds. *)
Definition demo_log : event_log unit :=
  {| log_events := [initialize_event; transfer_event; prepare_step];
     log_error := None |}.

Definition demo_text (event : RecordedEvent unit) : string := "event".

Definition demo_execute (a : arguments unit) : list output * termination :=
  execute unit unit unit (fun _ => tt) (fun m _ => Go.Ok m) (fun _ => "status")
    (fun event _ => inl (demo_text event)) (fun _ _ => "Malformed log.")
    (fun _ => inl demo_log) a.

End mircat.

(** * Theorems *)

(** ** The checkpoint window *)

Module CheckpointWindowFacts.
Import internal.

Lemma quorum_bound_exact (f : Z) :
  0 <= f < 2 ^ 62 -> Go.int_add (Go.int_mul 2 f) 1 = 2 * f + 1.
Proof.
  intros Hf. unfold Go.int_add, Go.int_mul, Go.int, Go.wrap.
  change (2 ^ (64 - 1)) with 9223372036854775808.
  change (2 ^ 64) with 18446744073709551616.
  change (2 ^ 62) with 4611686018427387904 in Hf.
  rewrite (Z.mod_small (2 * f + _)) by lia.
  replace (2 * f + 9223372036854775808 - 9223372036854775808 + 1
           + 9223372036854775808)
    with (2 * f + 1 + 9223372036854775808) by lia.
  rewrite Z.mod_small by lia. lia.
Qed.

Lemma pending_fold_dom (m : gmap N N) :
  map_fold (fun bucketID _ (acc : gset N) => {[bucketID]} ∪ acc) ∅ m = dom m.
Proof.
  induction m as [|k x m Hk Hfold IH] using map_first_key_ind.
  - by rewrite map_fold_empty, dom_empty_L.
  - rewrite map_fold_insert_first_key by done.
    rewrite IH, dom_insert_L. done.
Qed.

(** *** Construction and [Committed] *)

(** C8: [Committed bucket] removes [bucket] from the pending commits; it
    returns the single action [Checkpoint{seq}] exactly when the pending
    set is empty after the removal and the empty action list exactly when
    it is not; a window made by [NewCheckpointWindow] has every bucket of
    the epoch configuration pending. *)
Theorem Committed_checkpoint_when_drained
    (bucket number : N) (config : EpochConfig) (cw : CheckpointWindow) :
  PendingCommits (snd (Committed bucket cw))
    = PendingCommits cw ∖ {[bucket]}
  /\ (fst (Committed bucket cw) = checkpoint_action (Number cw)
      <-> PendingCommits (snd (Committed bucket cw)) = ∅)
  /\ (fst (Committed bucket cw) = no_actions
      <-> PendingCommits (snd (Committed bucket cw)) <> ∅)
  /\ PendingCommits (NewCheckpointWindow number config)
      = dom (Buckets config).
Proof.
  split; [|split; [|split]].
  - unfold Committed; simpl. by case_bool_decide.
  - unfold Committed; simpl. case_bool_decide as Hsz; simpl.
    + split; [discriminate|].
      intros Hempty. rewrite Hempty, size_empty in Hsz. lia.
    + split; [|done]. intros _.
      apply leibniz_equiv, size_empty_inv. lia.
  - unfold Committed; simpl. case_bool_decide as Hsz; simpl.
    + split; [|done]. intros _ Hempty.
      rewrite Hempty, size_empty in Hsz. lia.
    + split; [discriminate|]. intros Hne. exfalso. apply Hne.
      apply leibniz_equiv, size_empty_inv. lia.
  - unfold NewCheckpointWindow; simpl. apply pending_fold_dom.
Qed.

(** *** [ApplyCheckpointResult] *)

(** C5: [ApplyCheckpointResult value attestation] panics exactly when the
    committed value is set and its bytes differ from those of [value], and
    then returns no actions; in every other case it returns exactly the one
    broadcast of the checkpoint message carrying [value] and [attestation]
    and leaves the window as it was. *)
Theorem ApplyCheckpointResult_fatal_iff_disagrees
    (value attestation : Go.slice byte) (cw : CheckpointWindow) :
  (ApplyCheckpointResult value attestation cw = Go.Panic disagreement
     <-> (CommittedValue cw <> None
          /\ Go.elems value <> Go.elems (CommittedValue cw)))
  /\ (ApplyCheckpointResult value attestation cw
       = Go.Ok (checkpoint_broadcast value attestation, cw)
     <-> ~ (CommittedValue cw <> None
            /\ Go.elems value <> Go.elems (CommittedValue cw)))
  /\ (forall msg, ApplyCheckpointResult value attestation cw = Go.Panic msg
                  -> msg = disagreement).
Proof.
  unfold ApplyCheckpointResult, Go.bytes_Equal, checkpoint_broadcast.
  destruct (CommittedValue cw) as [c|] eqn:Hc; simpl.
  - case_bool_decide as Heq; simpl.
    + split; [|split]; [split; [discriminate|tauto] | | discriminate].
      split; [tauto|done].
    + split; [|split]; [split; [done|done] | | congruence].
      split; [discriminate|]. intros Hn. exfalso. apply Hn. done.
  - split; [|split]; [split; [discriminate|tauto] | | discriminate].
    split; [tauto|done].
Qed.

(** *** Runs of [ApplyCheckpointMsg] *)

Lemma step_config cw m : EpochConfig_ (step cw m) = EpochConfig_ cw.
Proof. unfold step, ApplyCheckpointMsg; simpl. by case_bool_decide. Qed.

Lemma apply_all_config ms cw :
  EpochConfig_ (apply_all cw ms) = EpochConfig_ cw.
Proof.
  revert cw. induction ms as [|m ms IH]; intros cw; [done|].
  change (apply_all cw (m :: ms)) with (apply_all (step cw m) ms).
  by rewrite IH, step_config.
Qed.

Lemma apply_all_snoc cw ms m :
  apply_all cw (ms ++ [m]) = step (apply_all cw ms) m.
Proof. unfold apply_all. by rewrite fold_left_app. Qed.

Lemma step_Values_at cw m k :
  Values_at (step cw m) k =
    if decide (Go.string_of (msg_value m) = k)
    then Values_at cw k ++
         [ {| Node := msg_source m;
              NodeAttestation_Attestation := msg_attestation m |} ]
    else Values_at cw k.
Proof.
  unfold step, ApplyCheckpointMsg, Values_at; simpl.
  case_bool_decide; simpl; case_decide as Hk.
  - subst k. by rewrite lookup_insert_eq.
  - by rewrite lookup_insert_ne.
  - subst k. by rewrite lookup_insert_eq.
  - by rewrite lookup_insert_ne.
Qed.

Lemma step_held_grows cw m m' : held_for cw m' <= held_for (step cw m) m'.
Proof.
  unfold held_for. rewrite step_Values_at. case_decide; [|lia].
  rewrite length_app; simpl. lia.
Qed.

Lemma step_held_own cw m : held_for (step cw m) m = held_for cw m + 1.
Proof.
  unfold held_for. rewrite step_Values_at. rewrite decide_True by done.
  rewrite length_app; simpl. lia.
Qed.

(** One call: the committed value becomes the value of the call when the
    attestations then held for it exceed the bound, and stays otherwise. *)
Lemma step_CommittedValue cw m :
  CommittedValue (step cw m) =
    if bool_decide
         (Go.int_add (Go.int_mul 2 (F (EpochConfig_ cw))) 1
          < held_for (step cw m) m)
    then msg_value m
    else CommittedValue cw.
Proof.
  rewrite step_held_own.
  unfold step, ApplyCheckpointMsg, held_for; simpl.
  rewrite length_app; simpl.
  replace (Z.of_nat (length (Values_at cw (Go.string_of (msg_value m))) + 1))
    with (Z.of_nat (length (Values_at cw (Go.string_of (msg_value m)))) + 1)
    by lia.
  by case_bool_decide.
Qed.

Lemma attestations_for_snoc v ms m :
  attestations_for v (ms ++ [m]) =
    (attestations_for v ms
     + if decide (Go.string_of (msg_value m) = v) then 1 else 0)%nat.
Proof.
  unfold attestations_for, attesting. rewrite filter_app, length_app.
  f_equal. rewrite filter_cons, filter_nil. by case_decide.
Qed.

(** A fresh window holds for each value as many attestations as the run
    applied for it. *)
Lemma fresh_run_holds_applied number config ms v :
  length (Values_at (apply_all (NewCheckpointWindow number config) ms) v)
    = attestations_for v ms.
Proof.
  induction ms as [|m ms IH] using rev_ind.
  - unfold Values_at; simpl. by rewrite lookup_empty.
  - rewrite apply_all_snoc, step_Values_at, attestations_for_snoc.
    case_decide; [|lia]. rewrite length_app, IH; simpl. done.
Qed.

(** *** The quorum rule *)

(** C1, as amended: on a window created with [f] and fed any run of
    attestations, a call of [ApplyCheckpointMsg] for the value [v] that
    finds the committed value unset sets it to [v] if and only if strictly
    more than [2f+1] attestations for [v] have then been applied, counted
    one per call whatever their sources; otherwise it stays unset.  With
    f=1 three attestations leave it unset and the fourth sets it. *)
Theorem quorum_by_attestation_count
    (number : N) (config : EpochConfig) (ms : list CheckpointMsg)
    (source : N) (v : list byte) (attestation : Go.slice byte) :
  fault_bound config ->
  CommittedValue (apply_all (NewCheckpointWindow number config) ms) = None ->
  (CommittedValue
     (snd (ApplyCheckpointMsg source (Some v) attestation
             (apply_all (NewCheckpointWindow number config) ms))) = Some v
   <-> 2 * F config + 1
       < Z.of_nat (attestations_for v
           (ms ++ [ {| msg_source := source; msg_value := Some v;
                       msg_attestation := attestation |} ])))
  /\ (CommittedValue
       (snd (ApplyCheckpointMsg source (Some v) attestation
               (apply_all (NewCheckpointWindow number config) ms))) = None
     <-> Z.of_nat (attestations_for v
           (ms ++ [ {| msg_source := source; msg_value := Some v;
                       msg_attestation := attestation |} ]))
         <= 2 * F config + 1).
Proof.
  intros Hf Hunset.
  set (cw := apply_all (NewCheckpointWindow number config) ms) in *.
  set (m := {| msg_source := source; msg_value := Some v;
               msg_attestation := attestation |}).
  change (snd (ApplyCheckpointMsg source (Some v) attestation cw))
    with (step cw m).
  assert (CommittedValue (step cw m) =
          if bool_decide (2 * F config + 1
                          < Z.of_nat (attestations_for v (ms ++ [m])))
          then Some v else None) as ->.
  { rewrite step_CommittedValue, step_held_own, Hunset.
    unfold cw. rewrite apply_all_config. simpl.
    rewrite quorum_bound_exact by exact Hf.
    unfold held_for. rewrite fresh_run_holds_applied, attestations_for_snoc.
    simpl. rewrite decide_True by done.
    replace (Z.of_nat (attestations_for v ms + 1))
      with (Z.of_nat (attestations_for v ms) + 1) by lia.
    done. }
  case_bool_decide; split; split; intros; try done; try lia.
Qed.

Lemma quorum_by_attestation_count_witness :
  CommittedValue
    (apply_all (NewCheckpointWindow 20 one_fault)
       [attest 0 [x01]; attest 1 [x01]; attest 2 [x01]]) = None
  /\ CommittedValue
       (snd (ApplyCheckpointMsg 3 (Some [x01]) (Some [])
               (apply_all (NewCheckpointWindow 20 one_fault)
                  [attest 0 [x01]; attest 1 [x01]; attest 2 [x01]])))
     = Some [x01].
Proof.
  split; [vm_compute; reflexivity|].
  apply (quorum_by_attestation_count 20 one_fault
           [attest 0 [x01]; attest 1 [x01]; attest 2 [x01]] 3 [x01] (Some [])).
  - unfold fault_bound, one_fault; simpl. split; [lia | reflexivity].
  - vm_compute; reflexivity.
  - vm_compute; reflexivity.
Defined.

(** C1 as stated fails: four attestations for one value from the single
    node 0 set the committed value of a window with f=1, although only one
    source, not more than [2f+1 = 3] distinct ones, has attested it. *)
Lemma quorum_ignores_repeated_source :
  CommittedValue
    (apply_all (NewCheckpointWindow 20 one_fault)
       [attest 0 [x01]; attest 0 [x01]; attest 0 [x01]]) = None
  /\ CommittedValue
       (apply_all (NewCheckpointWindow 20 one_fault)
          [attest 0 [x01]; attest 0 [x01]; attest 0 [x01]; attest 0 [x01]])
     = Some [x01]
  /\ distinct_sources_for [x01]
       [attest 0 [x01]; attest 0 [x01]; attest 0 [x01]; attest 0 [x01]]
     = 1%nat
  /\ ~ (2 * F one_fault + 1
        < Z.of_nat (distinct_sources_for [x01]
            [attest 0 [x01]; attest 0 [x01]; attest 0 [x01]; attest 0 [x01]])).
Proof.
  split; [vm_compute; reflexivity|].
  split; [vm_compute; reflexivity|].
  split; [vm_compute; reflexivity|].
  vm_compute. discriminate.
Qed.

(** *** Once committed *)

(** C2, as amended: once the committed value is [v], a run of
    [ApplyCheckpointMsg] calls leaves it at [v] as long as every call that
    carries another value ends with at most [2f+1] attestations held for
    that value (calls carrying [v] itself never change it); a call whose
    value then holds strictly more than [2f+1] attestations makes that
    value the committed one, whatever was committed before. *)
Theorem committed_value_kept_below_quorum
    (cw : CheckpointWindow) (v : list byte) :
  fault_bound (EpochConfig_ cw) ->
  CommittedValue cw = Some v ->
  (forall ms : list CheckpointMsg,
      (forall m, m ∈ ms -> msg_value m <> Some v ->
                 held_for (apply_all cw ms) m <= 2 * F (EpochConfig_ cw) + 1) ->
      CommittedValue (apply_all cw ms) = Some v)
  /\ (forall m : CheckpointMsg,
        2 * F (EpochConfig_ cw) + 1 < held_for (step cw m) m ->
        CommittedValue (step cw m) = msg_value m).
Proof.
  intros Hf Hv. split.
  - induction ms as [|m ms IH] using rev_ind; intros Hbelow; [done|].
    rewrite apply_all_snoc, step_CommittedValue, apply_all_config.
    rewrite quorum_bound_exact by exact Hf.
    rewrite IH.
    + case_bool_decide as Hq; [|done].
      destruct (decide (msg_value m = Some v)) as [->|Hne]; [done|].
      exfalso. rewrite <- apply_all_snoc in Hq.
      specialize (Hbelow m). rewrite elem_of_app, list_elem_of_singleton in Hbelow.
      specialize (Hbelow (or_intror eq_refl) Hne). lia.
    + intros m' Hin Hne.
      etrans; [apply (step_held_grows _ m)|].
      rewrite <- apply_all_snoc. apply Hbelow; [|done].
      rewrite elem_of_app. by left.
  - intros m Hq. rewrite step_CommittedValue.
    rewrite quorum_bound_exact by exact Hf.
    by rewrite bool_decide_eq_true_2.
Qed.

Lemma committed_value_kept_below_quorum_witness :
  CommittedValue
    (apply_all
       (apply_all (NewCheckpointWindow 20 one_fault)
          [attest 0 [x01]; attest 1 [x01]; attest 2 [x01]; attest 3 [x01]])
       [attest 0 [x01]; attest 1 [x02]; attest 2 [x02]])
  = Some [x01].
Proof.
  refine (proj1 (committed_value_kept_below_quorum
            (apply_all (NewCheckpointWindow 20 one_fault)
               [attest 0 [x01]; attest 1 [x01]; attest 2 [x01]; attest 3 [x01]])
            [x01] _ _)
            [attest 0 [x01]; attest 1 [x02]; attest 2 [x02]] _).
  - vm_compute. split; [discriminate | reflexivity].
  - vm_compute; reflexivity.
  - intros m Hin Hne.
    apply elem_of_cons in Hin as [->|Hin]; [exfalso; apply Hne; reflexivity|].
    apply elem_of_cons in Hin as [->|Hin]; [vm_compute; discriminate|].
    apply elem_of_cons in Hin as [->|Hin]; [vm_compute; discriminate|].
    exact (False_ind _ (proj1 (elem_of_nil m) Hin)).
Defined.

(** C2 as stated fails: on a window with f=1, four attestations for
    [0x01] set the committed value, and four later attestations for [0x02]
    replace it. *)
Lemma committed_value_overwritten :
  CommittedValue
    (apply_all (NewCheckpointWindow 20 one_fault)
       [attest 0 [x01]; attest 1 [x01]; attest 2 [x01]; attest 3 [x01]])
  = Some [x01]
  /\ CommittedValue
       (apply_all
          (apply_all (NewCheckpointWindow 20 one_fault)
             [attest 0 [x01]; attest 1 [x01]; attest 2 [x01]; attest 3 [x01]])
          [attest 0 [x02]; attest 1 [x02]; attest 2 [x02]; attest 3 [x02]])
     = Some [x02].
Proof. split; vm_compute; reflexivity. Qed.

(** Scenario 4: with [0x01] committed through peer attestations, the local
    result [0x02] panics, and the local result [0x01] is broadcast. *)
Example disagreeing_local_checkpoint_is_fatal :
  ApplyCheckpointResult (Some [x02]) (Some [])
    (apply_all (NewCheckpointWindow 20 one_fault)
       [attest 0 [x01]; attest 1 [x01]; attest 2 [x01]; attest 3 [x01]])
  = Go.Panic disagreement
  /\ fst <$> (match ApplyCheckpointResult (Some [x01]) (Some [])
                      (apply_all (NewCheckpointWindow 20 one_fault)
                         [attest 0 [x01]; attest 1 [x01]; attest 2 [x01];
                          attest 3 [x01]])
              with Go.Ok r => Some r | Go.Panic _ => None end)
     = Some (checkpoint_broadcast (Some [x01]) (Some [])).
Proof. split; vm_compute; reflexivity. Qed.

End CheckpointWindowFacts.

(** ** The work items *)

Module WorkItemsFacts.
Import mirbft.

Section Dispatcher.

Variable Payload : Type.
Variable Event : Type.

Implicit Types (wi : WorkItems Payload Event) (a b : Action Payload).
Implicit Types (actions : list (Action Payload)) (events : list Event).
Implicit Types (s l : ActionStream) (e : EventStream).

Local Ltac by_fields wi :=
  destruct wi as [[?|] [?|] [?|] [?|] [?|] [?|] [?|]].

(** Pushing through the pointer an accessor returns lengthens that
    stream and no other. *)
Lemma accessor_PushBackList l actions wi :
  only_actions_grow l actions wi
    (snd ((r ← actions_accessor Payload Event l;
           PushBackList Payload Event r actions) wi)).
Proof.
  split.
  - intros s'. by_fields wi; destruct l, s'; simpl;
      rewrite ?app_nil_r; reflexivity.
  - intros e. by_fields wi; destruct l, e; reflexivity.
Qed.

Lemma accessor_PushBack l a wi :
  only_actions_grow l [a] wi
    (snd ((r ← actions_accessor Payload Event l;
           PushBack Payload Event r a) wi)).
Proof. apply (accessor_PushBackList l [a] wi). Qed.

Lemma accessor_Events_PushBackList e events wi :
  only_events_grow e events wi
    (snd ((r ← events_accessor Payload Event e;
           Events_PushBackList Payload Event r events) wi)).
Proof.
  split.
  - intros e'. by_fields wi; destruct e, e'; simpl;
      rewrite ?app_nil_r; reflexivity.
  - intros s. by_fields wi; destruct e, s; reflexivity.
Qed.

(** The loop body agrees with the classification table: an action goes
    to the back of the stream the table names, and nowhere when the
    table names none. *)
Lemma dispatch_table a wi :
  only_actions_grow (default WAL (spec_stream a))
    (match spec_stream a with Some _ => [a] | None => [] end)
    wi (snd (dispatch a wi)).
Proof.
  destruct a as [[targets [ty body]]| | | | | | | | | |];
    try (apply accessor_PushBack).
  - destruct ty; apply accessor_PushBack.
  - split; [intros s'|intros e]; simpl; [|done].
    case_decide; by rewrite app_nil_r.
Qed.

Lemma dispatch_actions_of a wi s :
  actions_of s (snd (dispatch a wi)) =
    actions_of s wi ++ if decide (spec_stream a = Some s) then [a] else [].
Proof.
  rewrite (proj1 (dispatch_table a wi) s).
  destruct (spec_stream a) as [t|]; simpl.
  - destruct (decide (s = t)) as [->|Hne].
    + by rewrite decide_True.
    + rewrite decide_False; [done|]. intros [= ->]. done.
  - by repeat case_decide.
Qed.

(** The whole call: every stream grows by the actions the table sends
    to it, in their order in the input. *)
Lemma AddStateMachineResults_actions_of actions wi s :
  actions_of s (exec (AddStateMachineResults actions) wi) =
    actions_of s wi ++ filter (fun a => spec_stream a = Some s) actions.
Proof.
  revert wi. induction actions as [|a actions IH]; intros wi.
  - by rewrite app_nil_r.
  - unfold exec, AddStateMachineResults in *. simpl.
    unfold mbind, M_bind. simpl.
    destruct (dispatch a wi) as [[] wi1] eqn:Hd.
    rewrite IH.
    replace wi1 with (snd (dispatch a wi)) by (by rewrite Hd).
    rewrite dispatch_actions_of, filter_cons.
    case_decide; by rewrite <- ?app_assoc.
Qed.

Lemma AddStateMachineResults_appended actions wi s :
  appended_to s wi (exec (AddStateMachineResults actions) wi) =
    filter (fun a => spec_stream a = Some s) actions.
Proof.
  unfold appended_to. rewrite AddStateMachineResults_actions_of.
  by rewrite drop_app_length.
Qed.

Lemma routed_to_table a s : routed_to Event a s <-> spec_stream a = Some s.
Proof.
  unfold routed_to. rewrite dispatch_actions_of.
  replace (actions_of s (NewWorkItems Payload Event)) with (@nil (Action Payload))
    by (by destruct s).
  simpl. case_decide as Hs.
  - split; [done|]. intros _. apply list_elem_of_singleton. done.
  - split; [|done]. intros Hin. by apply elem_of_nil in Hin.
Qed.

(** C3: [AddStateMachineResults] puts every send of the input whose
    message type is RequestAck, Checkpoint, FetchBatch or ForwardBatch at
    the back of the Net stream and of no other stream, and every send of
    any other message type at the back of the WAL stream and of no other
    stream. *)
Theorem sends_routed_by_message_type wi actions (send : Send Payload) :
  Action_Send send ∈ actions ->
  (Msg_type (Send_Msg send) ∈ net_msg_types ->
     forall s, Action_Send send
                 ∈ appended_to s wi (exec (AddStateMachineResults actions) wi)
               <-> s = Net)
  /\ (Msg_type (Send_Msg send) ∉ net_msg_types ->
     forall s, Action_Send send
                 ∈ appended_to s wi (exec (AddStateMachineResults actions) wi)
               <-> s = WAL).
Proof.
  intros Hin. split; intros Hty s;
    rewrite AddStateMachineResults_appended, list_elem_of_filter; simpl.
  - rewrite bool_decide_eq_true_2 by done. split.
    + by intros [[= ->] _].
    + by intros ->.
  - rewrite bool_decide_eq_false_2 by done. split.
    + by intros [[= ->] _].
    + by intros ->.
Qed.

(** C4, as amended: every action of the input that is not a
    ForwardRequest is placed at the back of exactly one of the five
    streams and is found in that stream afterwards; a ForwardRequest
    action is placed in no stream. *)
Theorem actions_assigned_except_forward_request wi actions a :
  a ∈ actions ->
  (is_ForwardRequest a = false ->
     exists s,
       a ∈ actions_of s (exec (AddStateMachineResults actions) wi)
       /\ forall s', a ∈ appended_to s' wi
                           (exec (AddStateMachineResults actions) wi)
                     <-> s' = s)
  /\ (is_ForwardRequest a = true ->
     forall s', a ∉ appended_to s' wi
                      (exec (AddStateMachineResults actions) wi)).
Proof.
  intros Hin. split.
  - intros Hfr.
    assert (exists s, spec_stream a = Some s) as [s Hs].
    { destruct a as [send| | | | | | | | | |]; simpl in *;
        try discriminate; eauto.
      case_bool_decide; eauto. }
    exists s. split.
    + rewrite AddStateMachineResults_actions_of, elem_of_app. right.
      by apply list_elem_of_filter.
    + intros s'. rewrite AddStateMachineResults_appended, list_elem_of_filter.
      rewrite Hs. split.
      * by intros [[= ->] _].
      * by intros ->.
  - intros Hfr s'.
    rewrite AddStateMachineResults_appended, list_elem_of_filter.
    destruct a; try discriminate. simpl. by intros [? _].
Qed.

(** C6: [AddWALResults] appends its actions to the Net action stream;
    [AddClientResults] appends its events to the ReqStoreEvents stream;
    [AddNetResults], [AddHashResults], [AddAppResults] and
    [AddReqStoreResults] append their events to the ResultEvents stream;
    each of them leaves every other stream as it was. *)
Theorem result_helpers_append_to_one_stream wi actions events :
  only_actions_grow Net actions wi (exec (AddWALResults actions) wi)
  /\ only_events_grow ReqStore events wi (exec (AddClientResults events) wi)
  /\ only_events_grow Result events wi (exec (AddNetResults events) wi)
  /\ only_events_grow Result events wi (exec (AddHashResults events) wi)
  /\ only_events_grow Result events wi (exec (AddAppResults events) wi)
  /\ only_events_grow Result events wi (exec (AddReqStoreResults events) wi).
Proof.
  repeat split;
    first [ apply (accessor_PushBackList Net actions wi)
          | apply (accessor_Events_PushBackList ReqStore events wi)
          | apply (accessor_Events_PushBackList Result events wi) ].
Qed.

(** C7: for every input and every stream, [AddStateMachineResults] only
    appends behind what the stream already holds, and what it appends is a
    subsequence of the input: nothing is inserted, repeated or reordered.
    In particular, when [a] comes before [b] in the input and the loop
    sends both to the stream [s], the part appended to [s] is what the
    actions before [a] add, then [a], then what the actions between them
    add, then [b], then what the actions after [b] add. *)
Theorem stream_order_preserved wi actions :
  (forall s,
      actions_of s (exec (AddStateMachineResults actions) wi)
      = actions_of s wi
        ++ appended_to s wi (exec (AddStateMachineResults actions) wi))
  /\ (forall s,
        appended_to s wi (exec (AddStateMachineResults actions) wi)
          `sublist_of` actions)
  /\ (forall s a b (before between after : list (Action Payload)),
        actions = before ++ a :: between ++ b :: after ->
        routed_to Event a s ->
        routed_to Event b s ->
        appended_to s wi (exec (AddStateMachineResults actions) wi)
        = appended_to s wi (exec (AddStateMachineResults before) wi)
          ++ a :: appended_to s wi (exec (AddStateMachineResults between) wi)
          ++ b :: appended_to s wi (exec (AddStateMachineResults after) wi)).
Proof.
  split; [|split].
  - intros s.
    by rewrite AddStateMachineResults_appended,
               AddStateMachineResults_actions_of.
  - intros s. rewrite AddStateMachineResults_appended.
    apply sublist_filter.
  - intros s a b before between after -> Ha%routed_to_table Hb%routed_to_table.
    rewrite !AddStateMachineResults_appended.
    rewrite filter_app, filter_cons_True by done.
    rewrite filter_app, filter_cons_True by done.
    done.
Qed.

End Dispatcher.

Lemma sends_routed_by_message_type_witness :
  (request_ack ∈ appended_to Net (NewWorkItems unit unit)
                   (exec (AddStateMachineResults [request_ack])
                         (NewWorkItems unit unit)))
  /\ (request_ack ∉ appended_to WAL (NewWorkItems unit unit)
                      (exec (AddStateMachineResults [request_ack])
                            (NewWorkItems unit unit))).
Proof.
  assert (request_ack ∈ [request_ack]) as Hin by (left).
  destruct (sends_routed_by_message_type unit unit (NewWorkItems unit unit)
              [request_ack] _ Hin) as [Hnet _].
  assert (Msg_RequestAck ∈ net_msg_types) as Hty by (left).
  split.
  - apply (Hnet Hty Net). reflexivity.
  - intros Hwal. apply (Hnet Hty WAL) in Hwal. discriminate.
Defined.

Lemma actions_assigned_except_forward_request_witness :
  exists s,
    preprepare
      ∈ actions_of s (exec (AddStateMachineResults [preprepare; forward_request])
                           (NewWorkItems unit unit)).
Proof.
  assert (preprepare ∈ [preprepare; forward_request]) as Hin by (left).
  destruct (actions_assigned_except_forward_request unit unit
              (NewWorkItems unit unit) [preprepare; forward_request]
              preprepare Hin) as [Hsome _].
  destruct (Hsome eq_refl) as [s [Hfound _]].
  exists s. exact Hfound.
Defined.

(** C4 as stated fails: a ForwardRequest action handed to
    [AddStateMachineResults] is in none of the five streams afterwards. *)
Lemma forward_request_dropped :
  actions_of WAL (exec (AddStateMachineResults [forward_request])
                       (NewWorkItems unit unit)) = []
  /\ actions_of Net (exec (AddStateMachineResults [forward_request])
                         (NewWorkItems unit unit)) = []
  /\ actions_of Hash (exec (AddStateMachineResults [forward_request])
                          (NewWorkItems unit unit)) = []
  /\ actions_of Client (exec (AddStateMachineResults [forward_request])
                            (NewWorkItems unit unit)) = []
  /\ actions_of App (exec (AddStateMachineResults [forward_request])
                         (NewWorkItems unit unit)) = [].
Proof. repeat split. Qed.

Lemma stream_order_preserved_witness :
  actions_of WAL
    (exec (AddStateMachineResults
             ([request_ack] ++ preprepare :: [hash_request]
              ++ append_entry :: [preprepare]))
          (exec (AddStateMachineResults [append_entry])
                (NewWorkItems unit unit)))
  = [append_entry; preprepare; append_entry; preprepare].
Proof.
  destruct (stream_order_preserved unit unit
              (exec (AddStateMachineResults [append_entry])
                    (NewWorkItems unit unit))
              ([request_ack] ++ preprepare :: [hash_request]
               ++ append_entry :: [preprepare]))
    as (Hbehind & _ & Hpair).
  rewrite (Hbehind WAL).
  rewrite (Hpair WAL preprepare append_entry
             [request_ack] [hash_request] [preprepare] eq_refl).
  - reflexivity.
  - left.
  - left.
Defined.

End WorkItemsFacts.

(** ** The initial network state *)

Module NetworkStateFacts.
Import mirbft.

Lemma count_up_length {A} (n : Z) (body : Z -> A) :
  0 <= n -> Z.of_nat (length (count_up n body)) = n.
Proof.
  intros Hn. unfold count_up. rewrite length_map, length_seq. lia.
Qed.

Lemma count_up_lookup {A} (n : Z) (body : Z -> A) (i : nat) :
  (i < length (count_up n body))%nat ->
  count_up n body !! i = Some (body (Z.of_nat i)).
Proof.
  unfold count_up. rewrite length_map, length_seq. intros Hi.
  rewrite list_lookup_fmap, lookup_seq_lt by done. done.
Qed.

Lemma int32_small (z : Z) : - 2 ^ 31 <= z < 2 ^ 31 -> Go.int32 z = z.
Proof.
  intros Hz. unfold Go.int32, Go.wrap.
  change (2 ^ (32 - 1)) with (2 ^ 31).
  rewrite Z.mod_small; lia.
Qed.

Lemma int32_upper (z : Z) : Go.int32 z < 2 ^ 31.
Proof.
  unfold Go.int32, Go.wrap. change (2 ^ (32 - 1)) with (2 ^ 31).
  pose proof (Z.mod_pos_bound (z + 2 ^ 31) (2 ^ 32) eq_refl). lia.
Qed.

Lemma int_small (z : Z) : - 2 ^ 63 <= z < 2 ^ 63 -> Go.int z = z.
Proof.
  intros Hz. unfold Go.int, Go.wrap.
  change (2 ^ (64 - 1)) with (2 ^ 63).
  rewrite Z.mod_small; lia.
Qed.

(** C9, as amended: for every [nodeCount >= 1] (a Go [int]) and
    [clientCount >= 0] the call returns a network state whose nodes are
    [0 .. nodeCount-1] and whose stored [f] satisfies [3*f + 1 <= |nodes|];
    as long as [5*nodeCount] fits the 32-bit fields, [f] is
    [(nodeCount-1)/3] rounded towards zero, the number of buckets is
    [nodeCount] and the checkpoint interval is [5*nodeCount]. *)
Theorem StandardInitialNetworkState_invariant (nodeCount clientCount : Z) :
  1 <= nodeCount < 2 ^ 63 ->
  0 <= clientCount ->
  exists ns,
    StandardInitialNetworkState nodeCount clientCount = Go.Ok ns
    /\ Z.of_nat (length (Nodes (Config ns))) = nodeCount
    /\ (forall i : nat, (i < length (Nodes (Config ns)))%nat ->
                        Nodes (Config ns) !! i = Some (Z.of_nat i))
    /\ 3 * F (Config ns) + 1 <= Z.of_nat (length (Nodes (Config ns)))
    /\ (5 * nodeCount < 2 ^ 31 ->
          F (Config ns) = Z.quot (nodeCount - 1) 3
          /\ NumberOfBuckets (Config ns) = nodeCount
          /\ CheckpointInterval (Config ns) = 5 * nodeCount).
Proof.
  intros Hn Hc. unfold StandardInitialNetworkState.
  rewrite bool_decide_eq_false_2 by lia.
  eexists. split; [reflexivity|]. simpl.
  assert (Go.int_sub nodeCount 1 = nodeCount - 1) as ->.
  { unfold Go.int_sub. apply int_small. lia. }
  rewrite count_up_length by lia.
  split; [done|]. split; [apply count_up_lookup|].
  assert (0 <= Z.quot (nodeCount - 1) 3 /\ 3 * Z.quot (nodeCount - 1) 3 + 1 <= nodeCount)
    as [Hq0 Hq].
  { rewrite Z.quot_div_nonneg by lia.
    pose proof (Z.mul_div_le (nodeCount - 1) 3 eq_refl).
    pose proof (Z.div_pos (nodeCount - 1) 3). lia. }
  split.
  - destruct (Z_lt_ge_dec (Z.quot (nodeCount - 1) 3) (2 ^ 31)) as [Hsmall|Hbig].
    + rewrite int32_small by lia. done.
    + pose proof (int32_upper (Z.quot (nodeCount - 1) 3)). lia.
  - intros Hfit.
    rewrite (int32_small nodeCount) by lia.
    unfold Go.int32_mul. rewrite !int32_small by lia.
    repeat split; lia.
Qed.

Lemma StandardInitialNetworkState_invariant_witness :
  exists ns,
    StandardInitialNetworkState 4 2 = Go.Ok ns
    /\ Nodes (Config ns) = [0; 1; 2; 3]
    /\ F (Config ns) = 1
    /\ 3 * F (Config ns) + 1 <= Z.of_nat (length (Nodes (Config ns))).
Proof.
  destruct (StandardInitialNetworkState_invariant 4 2) as [ns (Hret & _ & _ & Hinv & _)].
  - split; [lia | reflexivity].
  - lia.
  - exists ns. vm_compute in Hret. injection Hret as <-.
    repeat split. exact Hinv.
Defined.

(** C9 as stated fails: with 429496730 nodes the checkpoint interval is
    computed in 32 bits and wraps around to a negative number instead of
    being [5*nodeCount]. *)
Lemma checkpoint_interval_wraps :
  exists ns,
    StandardInitialNetworkState 429496730 0 = Go.Ok ns
    /\ CheckpointInterval (Config ns) = -2147483646
    /\ CheckpointInterval (Config ns) <> 5 * 429496730.
Proof.
  eexists. split; [reflexivity|]. split; [reflexivity|]. discriminate.
Qed.

End NetworkStateFacts.

(** ** The argument check of mircat *)

Module mircatFacts.
Import mircat.

Section parseArgs.

Variable File : Type.
Variable app_Parse : list string -> flags File + string.

Lemma is_set_spec {A} (x : Go.slice A) : Go.is_set x = true <-> x <> None.
Proof. destruct x; simpl; split; intros; congruence. Qed.

(** C10: when kingpin has parsed the flags, [parseArgs] returns an error
    exactly when both --eventType and --notEventType are given, or both
    --stepType and --notStepType, or --statusIndex without --interactive;
    in every other case it returns arguments that reproduce the values
    of the flags. *)
Theorem parseArgs_rejects_exactly (args : list string) (fl : flags File) :
  app_Parse args = inl fl ->
  ((exists err, parseArgs File app_Parse args = Rejected err)
     <-> (both_event_filters File fl \/ both_step_filters File fl
          \/ status_without_interactive File fl))
  /\ ((exists a, parseArgs File app_Parse args = Accepted a
                 /\ reproduces File a fl)
     <-> ~ (both_event_filters File fl \/ both_step_filters File fl
            \/ status_without_interactive File fl)).
Proof.
  intros Hparse. unfold parseArgs. rewrite Hparse.
  unfold both_event_filters, both_step_filters, status_without_interactive,
    reproduces.
  rewrite <- !is_set_spec.
  destruct (Go.is_set (flag_eventType File fl)),
           (Go.is_set (flag_notEventType File fl)),
           (Go.is_set (flag_stepType File fl)),
           (Go.is_set (flag_notStepType File fl)),
           (Go.is_set (flag_statusIndex File fl)),
           (flag_interactive File fl); simpl;
    (split; split; intros H);
    solve [ destruct H as [? H]; discriminate H
          | destruct H as [? [H _]]; discriminate H
          | eexists; reflexivity
          | eexists; split; [reflexivity | by repeat split]
          | intuition congruence
          | exfalso; apply H; intuition congruence ].
Qed.

End parseArgs.

Lemma parseArgs_rejects_exactly_witness :
  exists a,
    parseArgs unit (fun _ => inl interactive_status)
      ["--interactive"; "--statusIndex"; "3"] = Accepted a
    /\ reproduces unit a interactive_status.
Proof.
  apply (parseArgs_rejects_exactly unit (fun _ => inl interactive_status)
           ["--interactive"; "--statusIndex"; "3"] interactive_status eq_refl).
  unfold both_event_filters, both_step_filters, status_without_interactive.
  simpl. intros [[H _]|[[H _]|[_ H]]]; [by apply H | by apply H | discriminate].
Defined.

End mircatFacts.

(** ** Further properties of the checkpoint window *)

Module CheckpointWindowRuns.
Import internal.
Import CheckpointWindowFacts.

Lemma attesting_snoc v ms m :
  attesting v (ms ++ [m]) =
    attesting v ms ++ if decide (Go.string_of (msg_value m) = v) then [m] else [].
Proof.
  unfold attesting. rewrite filter_app, filter_cons, filter_nil.
  by case_decide.
Qed.

Lemma attestations_for_app v p1 p2 :
  attestations_for v (p1 ++ p2)
    = (attestations_for v p1 + attestations_for v p2)%nat.
Proof. unfold attestations_for, attesting. by rewrite filter_app, length_app. Qed.

Lemma two_values_share_the_run v w ms :
  v <> w ->
  (attestations_for v ms + attestations_for w ms <= length ms)%nat.
Proof.
  intros Hne. induction ms as [|m ms IH]; [done|].
  unfold attestations_for, attesting in *. rewrite !filter_cons.
  repeat case_decide; simpl; try lia. congruence.
Qed.

Lemma held_for_fresh_run number config ms m :
  held_for (apply_all (NewCheckpointWindow number config) ms) m
    = Z.of_nat (attestations_for (Go.string_of (msg_value m)) ms).
Proof. unfold held_for. by rewrite fresh_run_holds_applied. Qed.

(** Behind a committed value there is a quorum of applied attestations. *)
Lemma quorum_behind_commit number config ms v :
  fault_bound config ->
  CommittedValue (apply_all (NewCheckpointWindow number config) ms) = Some v ->
  2 * F config + 1 < Z.of_nat (attestations_for v ms).
Proof.
  intros Hf. induction ms as [|m ms IH] using rev_ind; [done|].
  rewrite apply_all_snoc, step_CommittedValue, apply_all_config; simpl.
  rewrite quorum_bound_exact by exact Hf.
  case_bool_decide as Hq.
  - intros Hv. rewrite <- apply_all_snoc, held_for_fresh_run, Hv in Hq.
    exact Hq.
  - intros Hv. specialize (IH Hv). rewrite attestations_for_app. lia.
Qed.

(** X1: the window keeps, for every value, the source and attestation of
    each message applied for it, in the order of arrival. *)
Theorem fresh_run_records_attestations
    (number : N) (config : EpochConfig) (ms : list CheckpointMsg)
    (v : list byte) :
  Values_at (apply_all (NewCheckpointWindow number config) ms) v
    = attestation_of <$> attesting v ms.
Proof.
  induction ms as [|m ms IH] using rev_ind.
  - unfold Values_at; simpl. by rewrite lookup_empty.
  - rewrite apply_all_snoc, step_Values_at, attesting_snoc, fmap_app, IH.
    case_decide; [done|]. by rewrite app_nil_r.
Qed.

(** X2: on a window fed from its creation, a committed value always has
    strictly more than [2f+1] applied attestations behind it, and so a run
    of at most [2f+1] messages commits nothing. *)
Theorem commit_needs_quorum
    (number : N) (config : EpochConfig) (ms : list CheckpointMsg) :
  fault_bound config ->
  (forall v, CommittedValue (apply_all (NewCheckpointWindow number config) ms)
               = Some v ->
             2 * F config + 1 < Z.of_nat (attestations_for v ms))
  /\ (Z.of_nat (length ms) <= 2 * F config + 1 ->
      CommittedValue (apply_all (NewCheckpointWindow number config) ms) = None).
Proof.
  intros Hf. split.
  - intros v. by apply quorum_behind_commit.
  - intros Hshort.
    destruct (CommittedValue (apply_all (NewCheckpointWindow number config) ms))
      as [v|] eqn:Hv; [|done].
    apply quorum_behind_commit in Hv; [|done].
    pose proof (length_filter (fun m => Go.string_of (msg_value m) = v) ms).
    unfold attestations_for, attesting in Hv. lia.
Qed.

Lemma commit_needs_quorum_witness :
  CommittedValue
    (apply_all (NewCheckpointWindow 20 one_fault)
       [attest 0 [x01]; attest 1 [x02]; attest 2 [x01]]) = None.
Proof.
  refine (proj2 (commit_needs_quorum 20 one_fault
                   [attest 0 [x01]; attest 1 [x02]; attest 2 [x01]] _) _).
  - vm_compute; split; [discriminate | reflexivity].
  - vm_compute; discriminate.
Defined.

(** X3: in a run of at most [4f+3] messages on a fresh window (one from
    each node of a network of that size, say) two values cannot both reach
    the quorum: once a value is committed, the committed bytes stay the same
    to the end of the run. *)
Theorem committed_value_stable_in_short_runs
    (number : N) (config : EpochConfig) (p1 p2 : list CheckpointMsg)
    (v : list byte) :
  fault_bound config ->
  Z.of_nat (length (p1 ++ p2)) <= 4 * F config + 3 ->
  CommittedValue (apply_all (NewCheckpointWindow number config) p1) = Some v ->
  Go.string_of
    (CommittedValue (apply_all (NewCheckpointWindow number config) (p1 ++ p2)))
    = v
  /\ (v <> [] ->
      CommittedValue (apply_all (NewCheckpointWindow number config) (p1 ++ p2))
      = Some v).
Proof.
  intros Hf Hlen Hv.
  pose proof (quorum_behind_commit number config p1 v Hf Hv) as Hquorum.
  induction p2 as [|m p2 IH] using rev_ind.
  - rewrite app_nil_r, Hv. done.
  - rewrite app_assoc in *. rewrite length_app in Hlen; simpl in Hlen.
    rewrite apply_all_snoc, step_CommittedValue, apply_all_config; simpl.
    rewrite quorum_bound_exact by exact Hf.
    case_bool_decide as Hq; [|apply IH; lia].
    rewrite <- apply_all_snoc, held_for_fresh_run in Hq.
    assert (Go.string_of (msg_value m) = v) as Hkey.
    { destruct (decide (Go.string_of (msg_value m) = v)) as [|Hne]; [done|].
      exfalso.
      pose proof (two_values_share_the_run _ _ ((p1 ++ p2) ++ [m]) Hne) as Hsum.
      rewrite length_app in Hsum; simpl in Hsum.
      rewrite (attestations_for_app v (p1 ++ p2)),
              (attestations_for_app v p1) in Hsum.
      lia. }
    split; [done|]. intros Hnonempty.
    destruct (msg_value m) as [bs|]; simpl in Hkey; congruence.
Qed.

Lemma committed_value_stable_in_short_runs_witness :
  CommittedValue
    (apply_all (NewCheckpointWindow 20 one_fault)
       ([attest 0 [x01]; attest 1 [x01]; attest 2 [x01]; attest 3 [x01]]
        ++ [attest 0 [x02]; attest 1 [x02]; attest 2 [x02]]))
  = Some [x01].
Proof.
  refine (proj2 (committed_value_stable_in_short_runs 20 one_fault
                   [attest 0 [x01]; attest 1 [x01]; attest 2 [x01]; attest 3 [x01]]
                   [attest 0 [x02]; attest 1 [x02]; attest 2 [x02]]
                   [x01] _ _ _) _).
  - vm_compute; split; [discriminate | reflexivity].
  - vm_compute; discriminate.
  - vm_compute; reflexivity.
  - discriminate.
Defined.

(** X4: on a window fed from its creation, a local checkpoint result can
    only be fatal against a quorum: [ApplyCheckpointResult] panics only when
    strictly more than [2f+1] attestations were applied for committed bytes
    that differ from the local value. *)
Theorem local_result_fatal_only_against_quorum
    (number : N) (config : EpochConfig) (ms : list CheckpointMsg)
    (value attestation : Go.slice byte) (msg : string) :
  fault_bound config ->
  ApplyCheckpointResult value attestation
    (apply_all (NewCheckpointWindow number config) ms) = Go.Panic msg ->
  exists c,
    CommittedValue (apply_all (NewCheckpointWindow number config) ms) = Some c
    /\ c <> Go.elems value
    /\ 2 * F config + 1 < Z.of_nat (attestations_for c ms).
Proof.
  intros Hf. unfold ApplyCheckpointResult, Go.bytes_Equal.
  destruct (CommittedValue (apply_all (NewCheckpointWindow number config) ms))
    as [c|] eqn:Hc; simpl; [|discriminate].
  case_bool_decide as Heq; simpl; [discriminate|]. intros _.
  exists c. split; [done|]. split; [congruence|].
  by apply (quorum_behind_commit number config).
Qed.

Lemma local_result_fatal_only_against_quorum_witness :
  exists c,
    CommittedValue
      (apply_all (NewCheckpointWindow 20 one_fault)
         [attest 0 [x01]; attest 1 [x01]; attest 2 [x01]; attest 3 [x01]])
    = Some c
    /\ c <> [x02]
    /\ 3 < Z.of_nat (attestations_for c
              [attest 0 [x01]; attest 1 [x01]; attest 2 [x01]; attest 3 [x01]]).
Proof.
  refine (local_result_fatal_only_against_quorum 20 one_fault
            [attest 0 [x01]; attest 1 [x01]; attest 2 [x01]; attest 3 [x01]]
            (Some [x02]) None disagreement _ _).
  - vm_compute; split; [discriminate | reflexivity].
  - vm_compute; reflexivity.
Defined.

(** X5: attestations for the nil value never commit anything: a window
    whose committed value is unset keeps it unset through any run of
    messages carrying the nil value, however many there are. *)
Theorem nil_values_never_commit
    (cw : CheckpointWindow) (ms : list CheckpointMsg) :
  CommittedValue cw = None ->
  (forall m, m ∈ ms -> msg_value m = None) ->
  CommittedValue (apply_all cw ms) = None.
Proof.
  intros Hunset. induction ms as [|m ms IH] using rev_ind; intros Hnil; [done|].
  rewrite apply_all_snoc, step_CommittedValue.
  case_bool_decide.
  - apply Hnil. rewrite elem_of_app, list_elem_of_singleton. by right.
  - apply IH. intros m' Hin. apply Hnil. rewrite elem_of_app. by left.
Qed.

Lemma nil_values_never_commit_witness :
  CommittedValue
    (apply_all (NewCheckpointWindow 20 one_fault)
       (replicate 6 {| msg_source := 0; msg_value := None;
                       msg_attestation := None |})) = None.
Proof.
  apply (nil_values_never_commit (NewCheckpointWindow 20 one_fault)).
  - reflexivity.
  - intros m Hin. apply elem_of_replicate in Hin as [-> _]. reflexivity.
Defined.

Lemma commit_all_snoc cw buckets bucket :
  commit_all cw (buckets ++ [bucket]) =
    (Some (fst (Committed bucket (snd (commit_all cw buckets)))),
     snd (Committed bucket (snd (commit_all cw buckets)))).
Proof. unfold commit_all. by rewrite fold_left_app. Qed.

Lemma commit_all_pending cw buckets :
  PendingCommits (snd (commit_all cw buckets))
    = PendingCommits cw ∖ list_to_set buckets.
Proof.
  induction buckets as [|b buckets IH] using rev_ind.
  - simpl. set_solver.
  - rewrite commit_all_snoc. simpl.
    assert (PendingCommits (snd (Committed b (snd (commit_all cw buckets))))
            = PendingCommits (snd (commit_all cw buckets)) ∖ {[b]}) as ->.
    { unfold Committed; simpl. by case_bool_decide. }
    rewrite IH, list_to_set_app_L. set_solver.
Qed.

Lemma commit_all_Number cw buckets :
  Number (snd (commit_all cw buckets)) = Number cw.
Proof.
  induction buckets as [|b buckets IH] using rev_ind; [done|].
  rewrite commit_all_snoc. simpl. unfold Committed; simpl.
  by case_bool_decide.
Qed.

(** X6: on a fresh window the pending buckets after any sequence of
    [Committed] calls are the buckets of the epoch not yet named, and a call
    answers with the checkpoint request exactly when every bucket of the
    epoch has been named by it or an earlier call (so also on every later
    call), and with no action otherwise. *)
Theorem checkpoint_requested_once_all_buckets_committed
    (number : N) (config : EpochConfig) (buckets : list N) (bucket : N) :
  PendingCommits (snd (commit_all (NewCheckpointWindow number config) buckets))
    = dom (Buckets config) ∖ list_to_set buckets
  /\ (fst (commit_all (NewCheckpointWindow number config) (buckets ++ [bucket]))
        = Some (checkpoint_action number)
      <-> dom (Buckets config) ⊆ list_to_set (buckets ++ [bucket]))
  /\ (fst (commit_all (NewCheckpointWindow number config) (buckets ++ [bucket]))
        = Some no_actions
      <-> ~ dom (Buckets config) ⊆ list_to_set (buckets ++ [bucket])).
Proof.
  assert (PendingCommits (NewCheckpointWindow number config)
          = dom (Buckets config)) as Hfresh by apply pending_fold_dom.
  split; [by rewrite commit_all_pending, Hfresh|].
  rewrite commit_all_snoc. simpl.
  unfold Committed at 1 2; simpl.
  rewrite commit_all_pending, commit_all_Number, Hfresh. simpl.
  rewrite list_to_set_app_L.
  case_bool_decide as Hsz; simpl.
  - assert (~ dom (Buckets config) ⊆ list_to_set buckets ∪ list_to_set [bucket])
      as Hnot.
    { intros Hsub.
      assert (dom (Buckets config) ∖ list_to_set buckets ∖ {[bucket]}
              = (∅ : gset N)) as Hempty by set_solver.
      rewrite Hempty, size_empty in Hsz. lia. }
    split; split; try done; try (intros [=]).
  - assert (dom (Buckets config) ⊆ list_to_set buckets ∪ list_to_set [bucket])
      as Hsub.
    { assert (dom (Buckets config) ∖ list_to_set buckets ∖ {[bucket]}
              = (∅ : gset N)) as Hempty
        by (apply leibniz_equiv, size_empty_inv; lia).
      intros x Hx.
      destruct (decide (x ∈ (list_to_set buckets ∪ list_to_set [bucket]
                              : gset N))) as [|Hout]; [done|].
      exfalso.
      assert (x ∈ dom (Buckets config) ∖ list_to_set buckets ∖ {[bucket]})
        as Hleft by set_solver.
      rewrite Hempty in Hleft. by apply not_elem_of_empty in Hleft. }
    split; split; try done; try (intros [=]).
Qed.

(** X7: the two halves of the window do not interfere.  A checkpoint
    message changes neither the pending buckets nor what [Committed]
    answers, and [Committed] and [ApplyCheckpointMsg] reach the same window
    in either order. *)
Theorem commits_and_messages_commute
    (cw : CheckpointWindow) (bucket : N) (m : CheckpointMsg) :
  fst (Committed bucket (step cw m)) = fst (Committed bucket cw)
  /\ snd (Committed bucket (step cw m)) = step (snd (Committed bucket cw)) m
  /\ fst (ApplyCheckpointMsg (msg_source m) (msg_value m) (msg_attestation m)
           (snd (Committed bucket cw))) = no_actions.
Proof.
  unfold step, ApplyCheckpointMsg, Committed; simpl.
  repeat case_bool_decide; simpl; repeat split; try done; try lia.
Qed.

End CheckpointWindowRuns.

(** ** Further properties of the work items *)

Module WorkItemsRuns.
Import mirbft.
Import WorkItemsFacts.

Section Dispatcher.

Variable Payload : Type.
Variable Event : Type.

Implicit Types (wi : WorkItems Payload Event) (a b : Action Payload).
Implicit Types (actions : list (Action Payload)) (events : list Event).
Implicit Types (s l : ActionStream) (e : EventStream).

Lemma dispatch_events_of a wi e :
  events_of e (snd (dispatch a wi)) = events_of e wi.
Proof. apply (proj2 (dispatch_table Payload Event a wi) e). Qed.

Lemma AddStateMachineResults_cons a actions wi :
  exec (AddStateMachineResults (a :: actions)) wi
    = exec (AddStateMachineResults actions) (snd (dispatch a wi)).
Proof.
  unfold exec, AddStateMachineResults. simpl. unfold mbind, M_bind.
  by destruct (dispatch a wi) as [[] wi1].
Qed.

Lemma AddStateMachineResults_events_of actions wi e :
  events_of e (exec (AddStateMachineResults actions) wi) = events_of e wi.
Proof.
  revert wi. induction actions as [|a actions IH]; intros wi; [done|].
  by rewrite AddStateMachineResults_cons, IH, dispatch_events_of.
Qed.

Lemma filter_split_length {A} (P : A -> Prop) `{forall x, Decision (P x)}
    (l : list A) :
  (length (filter P l) + length (filter (fun x => ~ P x) l) = length l)%nat.
Proof.
  induction l as [|x l IH]; [done|].
  rewrite !filter_cons. repeat case_decide; simpl; try lia; tauto.
Qed.

Lemma routed_count actions :
  (length (filter (fun a => spec_stream a = Some WAL) actions)
   + length (filter (fun a => spec_stream a = Some Net) actions)
   + length (filter (fun a => spec_stream a = Some Hash) actions)
   + length (filter (fun a => spec_stream a = Some Client) actions)
   + length (filter (fun a => spec_stream a = Some App) actions)
   = length (filter (fun a : Action Payload => is_ForwardRequest a = false)
               actions))%nat.
Proof.
  induction actions as [|a actions IH]; [done|].
  rewrite !filter_cons.
  destruct a as [[targets [ty body]]| | | | | | | | | |]; simpl;
    try (repeat case_decide; simpl; try congruence; lia).
  destruct ty; simpl; repeat case_decide; simpl; try congruence; lia.
Qed.

(** X8: [AddStateMachineResults] neither loses nor duplicates work and
    never touches the event streams: the five action streams together grow
    by exactly the number of input actions that are not ForwardRequests,
    and both event streams stay as they were. *)
Theorem AddStateMachineResults_conserves_actions wi actions :
  total_actions (exec (AddStateMachineResults actions) wi)
    = (total_actions wi
       + length (filter (fun a => is_ForwardRequest a = false) actions))%nat
  /\ (forall e, events_of e (exec (AddStateMachineResults actions) wi)
                = events_of e wi).
Proof.
  split; [|intros e; apply AddStateMachineResults_events_of].
  unfold total_actions.
  rewrite !AddStateMachineResults_actions_of, !length_app.
  pose proof (routed_count actions). lia.
Qed.

(** X9: handing over one list or its two halves one after the other
    leaves the work items in the same state. *)
Theorem AddStateMachineResults_app wi (first second : list (Action Payload)) :
  exec (AddStateMachineResults (first ++ second)) wi
    = exec (AddStateMachineResults second)
           (exec (AddStateMachineResults first) wi).
Proof.
  revert wi. induction first as [|a first IH]; intros wi; [done|].
  simpl. by rewrite !AddStateMachineResults_cons, IH.
Qed.

(** X10: nil stream pointers behave as empty lists: work items that hold
    the same elements in every stream still do after the same call of
    [AddStateMachineResults], so the zero value can be used like the result
    of [NewWorkItems]. *)
Theorem nil_streams_work_as_empty wi1 wi2 actions :
  same_streams wi1 wi2 ->
  same_streams (exec (AddStateMachineResults actions) wi1)
               (exec (AddStateMachineResults actions) wi2).
Proof.
  intros [Hact Hev]. split.
  - intros s. by rewrite !AddStateMachineResults_actions_of, Hact.
  - intros e. by rewrite !AddStateMachineResults_events_of, Hev.
Qed.



Lemma AddWALResults_actions_of actions wi s :
  actions_of s (exec (AddWALResults actions) wi)
    = actions_of s wi ++ if decide (s = Net) then actions else [].
Proof. apply (proj1 (accessor_PushBackList Payload Event Net actions wi) s). Qed.

(** X12: sends that come back from the write-ahead log queue up on the
    Net stream behind the network sends dispatched before them and ahead
    of those dispatched after them. *)
Theorem wal_results_keep_their_place wi
    (earlier later : list (Action Payload)) (persisted : list (Action Payload)) :
  actions_of Net
    (exec (AddStateMachineResults later)
       (exec (AddWALResults persisted)
          (exec (AddStateMachineResults earlier) wi)))
  = actions_of Net wi
    ++ filter (fun a => spec_stream a = Some Net) earlier
    ++ persisted
    ++ filter (fun a => spec_stream a = Some Net) later.
Proof.
  rewrite AddStateMachineResults_actions_of, AddWALResults_actions_of.
  rewrite decide_True by done.
  rewrite AddStateMachineResults_actions_of.
  by rewrite <- !app_assoc.
Qed.

End Dispatcher.

Lemma nil_streams_work_as_empty_witness :
  same_streams
    (exec (AddStateMachineResults [preprepare; request_ack])
          (zero_WorkItems unit unit))
    (exec (AddStateMachineResults [preprepare; request_ack])
          (NewWorkItems unit unit)).
Proof.
  apply (nil_streams_work_as_empty unit unit).
  split; [intros s; by destruct s | intros e; by destruct e].
Defined.


End WorkItemsRuns.

(** ** Further properties of the initial network state *)

Module NetworkStateRuns.
Import mirbft.
Import NetworkStateFacts.

Lemma count_up_nonpositive {A} (n : Z) (body : Z -> A) :
  n <= 0 -> count_up n body = [].
Proof. intros Hn. unfold count_up. replace (Z.to_nat n) with 0%nat by lia. done. Qed.

Lemma count_up_NoDup (n : Z) : NoDup (count_up n (fun i => i)).
Proof.
  unfold count_up. apply NoDup_fmap_2; [|apply NoDup_seq].
  intros i j Hij. lia.
Qed.

Lemma count_up_fmap {A B} (f : A -> B) (n : Z) (body : Z -> A) :
  f <$> count_up n body = count_up n (fun i => f (body i)).
Proof. unfold count_up. by rewrite <- list_fmap_compose. Qed.

(** X13: for [clientCount >= 0] the state lists exactly [clientCount]
    clients; the client at position [i] has id [i], width 100 and low
    watermark 0, and no two clients share an id. *)
Theorem initial_clients (nodeCount clientCount : Z) :
  0 <= clientCount ->
  exists ns,
    StandardInitialNetworkState nodeCount clientCount = Go.Ok ns
    /\ Z.of_nat (length (Clients ns)) = clientCount
    /\ (forall i : nat, (i < length (Clients ns))%nat ->
          Clients ns !! i
          = Some {| Id := Z.of_nat i; Width := 100; LowWatermark := 0 |})
    /\ NoDup (Id <$> Clients ns).
Proof.
  intros Hc. unfold StandardInitialNetworkState.
  rewrite bool_decide_eq_false_2 by lia.
  eexists. split; [reflexivity|]. simpl.
  split; [by apply count_up_length|].
  split; [apply count_up_lookup|].
  rewrite count_up_fmap. simpl. apply count_up_NoDup.
Qed.

Lemma initial_clients_witness :
  exists ns,
    StandardInitialNetworkState 4 2 = Go.Ok ns
    /\ Clients ns = [ {| Id := 0; Width := 100; LowWatermark := 0 |};
                      {| Id := 1; Width := 100; LowWatermark := 0 |} ].
Proof.
  destruct (initial_clients 4 2) as [ns (Hret & _ & _ & _)]; [lia|].
  exists ns. split; [exact Hret|].
  vm_compute in Hret. by injection Hret as <-.
Defined.

(** X14: the fault bound chosen is the largest the network supports: for
    [1 <= nodeCount < 3 * 2^31] the stored [f] satisfies
    [3f+1 <= nodeCount <= 3f+3], so that one more fault would need more
    nodes than there are. *)
Theorem initial_fault_bound_is_maximal (nodeCount clientCount : Z) :
  1 <= nodeCount < 3 * 2 ^ 31 ->
  0 <= clientCount ->
  exists ns,
    StandardInitialNetworkState nodeCount clientCount = Go.Ok ns
    /\ 0 <= F (Config ns)
    /\ 3 * F (Config ns) + 1 <= nodeCount <= 3 * F (Config ns) + 3.
Proof.
  intros Hn Hc. unfold StandardInitialNetworkState.
  rewrite bool_decide_eq_false_2 by lia.
  eexists. split; [reflexivity|]. simpl.
  assert (Go.int_sub nodeCount 1 = nodeCount - 1) as ->.
  { unfold Go.int_sub. apply int_small. lia. }
  rewrite Z.quot_div_nonneg by lia.
  assert (0 <= (nodeCount - 1) / 3 < 2 ^ 31) as Hq.
  { split; [apply Z.div_pos; lia|]. apply Z.div_lt_upper_bound; lia. }
  rewrite int32_small by lia.
  pose proof (Z.mul_div_le (nodeCount - 1) 3 eq_refl).
  pose proof (Z.mul_succ_div_gt (nodeCount - 1) 3 eq_refl).
  lia.
Qed.

Lemma initial_fault_bound_is_maximal_witness :
  exists ns,
    StandardInitialNetworkState 7 0 = Go.Ok ns /\ F (Config ns) = 2.
Proof.
  destruct (initial_fault_bound_is_maximal 7 0) as [ns (Hret & _ & _)].
  - split; [lia | reflexivity].
  - lia.
  - exists ns. split; [exact Hret|].
    vm_compute in Hret. by injection Hret as <-.
Defined.

(** X15: an epoch of the initial state spans ten checkpoint intervals:
    for [nodeCount >= 1] with [50*nodeCount < 2^31] the maximal epoch
    length is [50*nodeCount], ten times the checkpoint interval; from
    [50*nodeCount >= 2^31] on (up to [2^32]) the 32-bit product is negative
    and its conversion to uint64 makes the epoch length exceed [2^63]. *)
Theorem initial_epoch_length (nodeCount clientCount : Z) :
  1 <= nodeCount ->
  5 * nodeCount < 2 ^ 31 ->
  0 <= clientCount ->
  exists ns,
    StandardInitialNetworkState nodeCount clientCount = Go.Ok ns
    /\ (50 * nodeCount < 2 ^ 31 ->
        MaxEpochLength (Config ns) = 50 * nodeCount
        /\ MaxEpochLength (Config ns) = 10 * CheckpointInterval (Config ns))
    /\ (2 ^ 31 <= 50 * nodeCount < 2 ^ 32 ->
        MaxEpochLength (Config ns) = 2 ^ 64 - 2 ^ 32 + 50 * nodeCount).
Proof.
  intros Hn Hfit Hc. unfold StandardInitialNetworkState.
  rewrite bool_decide_eq_false_2 by lia.
  eexists. split; [reflexivity|]. simpl.
  rewrite (int32_small nodeCount) by lia.
  unfold Go.int32_mul. rewrite !(int32_small (nodeCount * 5)) by lia.
  split.
  - intros Hsmall. rewrite !int32_small by lia.
    rewrite Z.mod_small by lia. lia.
  - intros Hwrap. unfold Go.int32, Go.wrap.
    change (2 ^ (32 - 1)) with (2 ^ 31).
    replace (nodeCount * 5 * 10 + 2 ^ 31)
      with (nodeCount * 50 - 2 ^ 31 + 1 * 2 ^ 32) by lia.
    rewrite Z_mod_plus_full, (Z.mod_small (nodeCount * 50 - 2 ^ 31)) by lia.
    replace (nodeCount * 50 - 2 ^ 31 - 2 ^ 31)
      with (2 ^ 64 - 2 ^ 32 + 50 * nodeCount + (-1) * 2 ^ 64) by lia.
    rewrite Z_mod_plus_full, Z.mod_small by lia. done.
Qed.

Lemma initial_epoch_length_witness :
  exists ns,
    StandardInitialNetworkState 4 0 = Go.Ok ns
    /\ MaxEpochLength (Config ns) = 200.
Proof.
  destruct (initial_epoch_length 4 0) as [ns (Hret & Hlen & _)];
    [lia | reflexivity | lia |].
  exists ns. split; [exact Hret|].
  apply Hlen. reflexivity.
Defined.

(** X16: a node count that is not positive is not refused.  For
    [-2^31 <= nodeCount <= 0] the call returns a state without nodes whose
    bucket count is [nodeCount], and its [f] satisfies [3f+1 <= |nodes|]
    only from [nodeCount <= -2] down: for 0 and -1 nodes [f] is 0.  A
    negative client count makes the call panic. *)
Theorem initial_state_without_nodes (nodeCount clientCount : Z) :
  - 2 ^ 31 <= nodeCount <= 0 ->
  (clientCount < 0 ->
     StandardInitialNetworkState nodeCount clientCount
     = Go.Panic "makeslice: len out of range")
  /\ (0 <= clientCount ->
      exists ns,
        StandardInitialNetworkState nodeCount clientCount = Go.Ok ns
        /\ Nodes (Config ns) = []
        /\ NumberOfBuckets (Config ns) = nodeCount
        /\ (3 * F (Config ns) + 1 <= Z.of_nat (length (Nodes (Config ns)))
            <-> nodeCount <= -2)).
Proof.
  intros Hn. unfold StandardInitialNetworkState. split.
  - intros Hc. by rewrite bool_decide_eq_true_2 by lia.
  - intros Hc. rewrite bool_decide_eq_false_2 by lia.
    eexists. split; [reflexivity|]. simpl.
    rewrite count_up_nonpositive by lia.
    split; [done|]. split; [apply int32_small; lia|]. simpl.
    assert (Go.int_sub nodeCount 1 = nodeCount - 1) as ->.
    { unfold Go.int_sub. apply int_small. lia. }
    assert (- 2 ^ 31 <= Z.quot (nodeCount - 1) 3 <= 0) as Hq.
    { Z.to_euclidean_division_equations. lia. }
    rewrite int32_small by lia.
    Z.to_euclidean_division_equations. lia.
Qed.

Lemma initial_state_without_nodes_witness :
  exists ns,
    StandardInitialNetworkState 0 0 = Go.Ok ns
    /\ F (Config ns) = 0
    /\ Nodes (Config ns) = [].
Proof.
  destruct (initial_state_without_nodes 0 0) as [_ Hok].
  - split; [discriminate | lia].
  - destruct (Hok ltac:(lia)) as [ns (Hret & Hnodes & _)].
    exists ns. split; [exact Hret|]. split; [|exact Hnodes].
    vm_compute in Hret. by injection Hret as <-.
Defined.

End NetworkStateRuns.

(** ** The filters of mircat *)

Module mircatFilters.
Import mircat.

Lemma include_loop_spec value names :
  include_loop value names = true <-> value ∉ names.
Proof.
  induction names as [|n names IH]; simpl.
  - split; [intros _; apply not_elem_of_nil | done].
  - rewrite not_elem_of_cons. case_decide as Hn.
    + split; [done|]. intros [Hne _]. by destruct Hne.
    + rewrite IH. split; [by intros ?; split|]. by intros [_ ?].
Qed.

Lemma exclude_loop_spec value names :
  exclude_loop value names = true <-> value ∈ names.
Proof.
  induction names as [|n names IH]; simpl.
  - split; [done|]. intros Hin. by apply elem_of_nil in Hin.
  - rewrite elem_of_cons. case_decide as Hn.
    + split; [|done]. intros _. by left.
    + rewrite IH. split; [by right|]. intros [Heq|Hin]; [by destruct Hn|done].
Qed.

Lemma excludeByType_selected value include exclude :
  excludeByType value include exclude = false <-> selected include exclude value.
Proof.
  unfold excludeByType, selected. destruct include as [names|].
  - rewrite <- not_true_iff_false, include_loop_spec.
    split; [|by intros ? ?]. intros Hnn.
    by destruct (decide (value ∈ names)).
  - by rewrite <- not_true_iff_false, exclude_loop_spec.
Qed.

(** X17: [excludeByType] excludes a value exactly when the including list
    is given (non-nil) and does not hold it, or when no including list is
    given and the excluding list holds it.  So an including list silences
    the excluding one, and an empty including list excludes everything. *)
Theorem excludeByType_membership
    (value : string) (include exclude : Go.slice string) :
  (excludeByType value include exclude = true
     <-> match include with
         | Some names => value ∉ names
         | None => value ∈ Go.elems exclude
         end)
  /\ (forall names, excludeByType value (Some names) exclude
                    = excludeByType value (Some names) None)
  /\ excludeByType value (Some []) exclude = true
  /\ excludeByType value None None = false.
Proof.
  split; [|by repeat split].
  unfold excludeByType. destruct include as [names|].
  - apply include_loop_spec.
  - apply exclude_loop_spec.
Qed.

(** X18: [excludedByNodeID] excludes an event exactly when a list of node
    ids is given and does not hold the node of the event; without a list
    no event is excluded, and an empty list excludes every event. *)
Theorem excludedByNodeID_membership (NodeId : N) (nodeIDs : Go.slice N) :
  (excludedByNodeID NodeId nodeIDs = true
     <-> exists ids, nodeIDs = Some ids /\ NodeId ∉ ids)
  /\ excludedByNodeID NodeId (Some []) = true.
Proof.
  split; [|done]. unfold excludedByNodeID.
  destruct nodeIDs as [ids|]; [|split; [done | by intros [? [? _]]]].
  assert (nodeID_loop NodeId ids = true <-> NodeId ∉ ids) as ->.
  { induction ids as [|n ids IH]; simpl.
    - split; [intros _; apply not_elem_of_nil | done].
    - rewrite not_elem_of_cons. case_decide as Hn.
      + split; [done|]. intros [Hne _]. by destruct Hne.
      + rewrite IH. split; [by intros ?; split|]. by intros [_ ?]. }
  split; [by exists ids|]. by intros [? [[= <-] ?]].
Qed.

(** X19: the names the filters compare with are the names the flags
    accept, except for one: every event type but Transfer is written as a
    name of [allEventTypes], every name of that list is the text of an
    event type, and different kinds of events have different texts; a
    Transfer is written "StateTransfer", which is not in the list.  The
    texts of the message types are one-to-one with [allMsgTypes]. *)
Theorem filter_names_match_the_flags :
  (forall t, eventTypeText t ∈ allEventTypes <-> t <> StateEvent_Transfer)
  /\ (forall name, name ∈ allEventTypes -> exists t, eventTypeText t = name)
  /\ (forall t t', eventTypeText t = eventTypeText t' -> same_kind t t')
  /\ (forall ty, stepTypeText ty ∈ allMsgTypes)
  /\ (forall name, name ∈ allMsgTypes -> exists ty, stepTypeText ty = name)
  /\ (forall ty ty', stepTypeText ty = stepTypeText ty' -> ty = ty').
Proof.
  split; [|split; [|split; [|split; [|split]]]].
  - intros t. unfold allEventTypes. destruct t; simpl;
      (split; [intros Hin; try done | intros Hne; try done]);
      try (repeat (first [ apply list_elem_of_here | apply list_elem_of_further ])).
    exfalso. repeat (apply elem_of_cons in Hin as [Hin|Hin]; [discriminate|]).
    by apply elem_of_nil in Hin.
  - intros name Hin. unfold allEventTypes in Hin.
    repeat (apply elem_of_cons in Hin as [->|Hin];
            [ first [ by exists StateEvent_Initialize
                    | by exists StateEvent_LoadEntry
                    | by exists StateEvent_CompleteInitialization
                    | by exists StateEvent_Tick
                    | by exists (StateEvent_Step None)
                    | by exists StateEvent_Propose
                    | by exists StateEvent_AddResults
                    | by exists StateEvent_ActionsReceived ] |]).
    by apply elem_of_nil in Hin.
  - intros t t'. destruct t, t'; simpl; intros Heq; try done; discriminate.
  - intros ty. unfold allMsgTypes. destruct ty; simpl;
      repeat (first [ apply list_elem_of_here | apply list_elem_of_further ]).
  - intros name Hin. unfold allMsgTypes in Hin.
    repeat (apply elem_of_cons in Hin as [->|Hin];
            [ first [ by exists mirbft.Msg_Preprepare
                    | by exists mirbft.Msg_Prepare
                    | by exists mirbft.Msg_Commit
                    | by exists mirbft.Msg_Checkpoint
                    | by exists mirbft.Msg_EpochChange
                    | by exists mirbft.Msg_EpochChangeAck
                    | by exists mirbft.Msg_Suspect
                    | by exists mirbft.Msg_NewEpoch
                    | by exists mirbft.Msg_NewEpochEcho
                    | by exists mirbft.Msg_NewEpochReady
                    | by exists mirbft.Msg_FetchBatch
                    | by exists mirbft.Msg_ForwardBatch
                    | by exists mirbft.Msg_FetchRequest
                    | by exists mirbft.Msg_RequestAck
                    | by exists mirbft.Msg_ForwardRequest ] |]).
    by apply elem_of_nil in Hin.
  - intros ty ty'. destruct ty, ty'; simpl; intros Heq; try done; discriminate.
Qed.

End mircatFilters.

(** ** Playing a log with mircat *)

Module mircatPlayback.
Import mircat.
Import mircatFilters.

Section playback.

Variable File : Type.
Variable Payload : Type.

Implicit Types (a : arguments File) (event : RecordedEvent Payload).
Implicit Types (t : StateEvent_Type).

Lemma StateTransfer_not_a_flag_value : "StateTransfer" ∉ allEventTypes.
Proof.
  unfold allEventTypes. intros Hin.
  repeat (apply elem_of_cons in Hin as [Hin|Hin]; [discriminate|]).
  by apply elem_of_nil in Hin.
Qed.

(** X20: transfer events escape the event filters of the command line,
    whose values are names of [allEventTypes]: no --eventType list selects
    a transfer event, and no --notEventType list hides one. *)
Theorem transfer_events_escape_the_filters a event :
  StateEvent_type Payload (RecordedEvent_StateEvent Payload event)
    = Some StateEvent_Transfer ->
  (forall names, eventTypes File a = Some names ->
                 names ⊆ allEventTypes ->
                 shouldPrint File Payload a event = Go.Ok false)
  /\ (eventTypes File a = None ->
      Go.elems (notEventTypes File a) ⊆ allEventTypes ->
      shouldPrint File Payload a event = Go.Ok true).
Proof.
  intros Ht. unfold shouldPrint. rewrite Ht. simpl. split.
  - intros names Hinc Hsub. rewrite Hinc. simpl.
    assert (include_loop "StateTransfer" names = true) as ->; [|done].
    apply include_loop_spec. intros Hin.
    apply StateTransfer_not_a_flag_value. by apply Hsub.
  - intros Hinc Hsub. rewrite Hinc. simpl.
    assert (exclude_loop "StateTransfer" (Go.elems (notEventTypes File a))
            = false) as ->; [|done].
    apply not_true_iff_false. rewrite exclude_loop_spec. intros Hin.
    apply StateTransfer_not_a_flag_value. by apply Hsub.
Qed.


(** X22: what the four filter flags mean.  An event with its types set is
    printed exactly when the name of its type passes the event filters and,
    for a step, the name of its message type passes the step filters; the
    step filters have no say on other events. *)
Theorem shouldPrint_selects a event t :
  StateEvent_type Payload (RecordedEvent_StateEvent Payload event) = Some t ->
  t <> StateEvent_Step None ->
  (shouldPrint File Payload a event = Go.Ok true
     <-> (selected (eventTypes File a) (notEventTypes File a) (eventTypeText t)
          /\ forall ty, t = StateEvent_Step (Some ty) ->
                        selected (stepTypes File a) (notStepTypes File a)
                          (stepTypeText ty)))
  /\ (shouldPrint File Payload a event = Go.Ok false
      \/ shouldPrint File Payload a event = Go.Ok true).
Proof.
  intros Ht Hwf. unfold shouldPrint. rewrite Ht.
  destruct (excludeByType (eventTypeText t) (eventTypes File a)
              (notEventTypes File a)) eqn:Hex.
  - split; [|by left]. split; [done|]. intros [Hsel _].
    apply excludeByType_selected in Hsel. congruence.
  - apply excludeByType_selected in Hex.
    destruct t as [| | | | | | |[ty|]|]; try done;
      try (split; [|by right]; split; [by intros _; split | done]).
    destruct (excludeByType (stepTypeText ty) (stepTypes File a)
                (notStepTypes File a)) eqn:Hstep.
    + split; [|by left]. split; [done|]. intros [_ Hsel].
      specialize (Hsel ty eq_refl).
      apply excludeByType_selected in Hsel. congruence.
    + split; [|by right]. split; [|done]. intros _. split; [done|].
      intros ty' [= <-]. by apply excludeByType_selected.
Qed.

End playback.

Lemma transfer_events_escape_the_filters_witness :
  shouldPrint unit unit only_prepare_steps transfer_event = Go.Ok false.
Proof.
  refine (proj1 (transfer_events_escape_the_filters unit unit
                   only_prepare_steps transfer_event eq_refl)
                ["Step"] eq_refl _).
  intros name Hin. apply list_elem_of_singleton in Hin as ->.
  unfold allEventTypes.
  repeat (first [ apply list_elem_of_here | apply list_elem_of_further ]).
Defined.

Lemma shouldPrint_selects_witness :
  shouldPrint unit unit only_prepare_steps prepare_step = Go.Ok true.
Proof.
  apply (shouldPrint_selects unit unit only_prepare_steps prepare_step
           (StateEvent_Step (Some mirbft.Msg_Prepare)) eq_refl).
  - discriminate.
  - split.
    + apply list_elem_of_here.
    + intros ty [= <-]. apply list_elem_of_here.
Defined.


Section execute.

Variable File : Type.
Variable Payload : Type.
Variable Machine : Type.
Variable new_machine : N -> Machine.
Variable ApplyEvent : Machine -> StateEvent Payload -> Go.result Machine.
Variable Status_Pretty : Machine -> string.
Variable textFormat : RecordedEvent Payload -> bool -> string + string.
Variable malformed_log : N -> option StateEvent_Type -> string.
Variable NewReader : File -> event_log Payload + string.

Implicit Types (a : arguments File) (event : RecordedEvent Payload).

Local Abbreviation loop :=
  (execute_loop File Payload Machine new_machine ApplyEvent Status_Pretty
     textFormat malformed_log).

Local Abbreviation line_of_log := (mircat.line_of_log File Payload textFormat).

Lemma line_of_log_shift a marks event events i0 o :
  line_of_log a marks events (i0 + 1) o -> line_of_log a marks (event :: events) i0 o.
Proof.
  destruct o as [index text| |]; simpl; try done.
  intros (k & ev & -> & Hk & ?). exists (S k), ev.
  split; [lia|]. done.
Qed.

Lemma loop_lines a marks events err i0 nodes out0 :
  exists extra,
    fst (loop a marks events err i0 nodes out0) = out0 ++ extra
    /\ Forall (line_of_log a marks events i0) extra.
Proof.
  revert i0 nodes out0.
  induction events as [|event events IH]; intros i0 nodes out0.
  - exists []. simpl. destruct err; simpl; by rewrite app_nil_r.
  - simpl.
    assert (forall nodes' mid,
              Forall (line_of_log a marks (event :: events) i0) mid ->
              exists extra,
                fst (loop a marks events err (i0 + 1) nodes' (out0 ++ mid))
                  = out0 ++ extra
                /\ Forall (line_of_log a marks (event :: events) i0) extra)
      as Hrec.
    { intros nodes' mid Hmid.
      destruct (IH (i0 + 1)%N nodes' (out0 ++ mid)) as (extra & -> & Hextra).
      exists (mid ++ extra). split; [by rewrite app_assoc|].
      apply Forall_app. split; [done|].
      eapply Forall_impl; [exact Hextra|]. apply line_of_log_shift. }
    assert (exists extra, out0 = out0 ++ extra
              /\ Forall (line_of_log a marks (event :: events) i0) extra) as Hstop.
    { exists []. by rewrite app_nil_r. }
    destruct (excludedByNodeID (NodeId Payload event) (nodeIDs File a)) eqn:Hex.
    { specialize (Hrec nodes [] (Forall_nil_2 _)). by rewrite app_nil_r in Hrec. }
    case_bool_decide as Hstatus.
    + destruct (textFormat event (negb (verboseText File a))) as [text|e] eqn:Htext;
        [|exact Hstop].
      assert (line_of_log a marks (event :: events) i0 (EventLine (i0 + 1) text))
        as Hline.
      { exists 0%nat, event. repeat split; try done; [lia|by left]. }
      destruct (interactive File a).
      * destruct (apply _ _ _ _ _ _ _) as [nodes'|msg];
          [|exists [EventLine (i0 + 1)%N text]; split; [done|by constructor]].
        destruct (nodes' !! NodeId Payload event) as [node|];
          [|exists [EventLine (i0 + 1)%N text]; split; [done|by constructor]].
        rewrite <- app_assoc. apply Hrec.
        constructor; [done|]. by constructor.
      * apply Hrec. by constructor.
    + destruct (shouldPrint File Payload a event) as [[|]|msg] eqn:Hprint;
        [| |exact Hstop].
      * destruct (textFormat event (negb (verboseText File a))) as [text|e] eqn:Htext;
          [|exact Hstop].
        assert (line_of_log a marks (event :: events) i0 (EventLine (i0 + 1) text))
          as Hline.
        { exists 0%nat, event. repeat split; try done; [lia|by right]. }
        destruct (interactive File a); [|apply Hrec; by constructor].
        destruct (apply _ _ _ _ _ _ _) as [nodes'|msg];
          [|exists [EventLine (i0 + 1)%N text]; split; [done|by constructor]].
        apply Hrec. by constructor.
      * destruct (interactive File a).
        -- destruct (apply _ _ _ _ _ _ _) as [nodes'|msg]; [|exact Hstop].
           specialize (Hrec nodes' [] (Forall_nil_2 _)).
           by rewrite app_nil_r in Hrec.
        -- specialize (Hrec nodes [] (Forall_nil_2 _)).
           by rewrite app_nil_r in Hrec.
Qed.

Lemma closing_lines nodes ids out :
  exists extra,
    fst (execute_closing Machine nodes ids out) = out ++ extra
    /\ Forall (fun o => exists id, o = Completed id) extra.
Proof.
  revert out. induction ids as [|id ids IH]; intros out; simpl.
  - exists []. by rewrite app_nil_r.
  - destruct (nodes !! id); [|exists []; by rewrite app_nil_r].
    destruct (IH (out ++ [Completed id])) as (extra & -> & Hextra).
    exists (Completed id :: extra). split; [by rewrite <- app_assoc|].
    constructor; [by eexists|done].
Qed.

(** X23: every event line that [execute] writes, however the run ends,
    stands for an event of the log: its index is the position of the event
    in the log counted from 1 (events filtered out count as well), the
    event passes the node filter, the text is its formatted text, and
    either the index is a status index or [shouldPrint] accepts the
    event. *)
Theorem printed_lines_come_from_the_log a reader index text :
  NewReader (input File a) = inl reader ->
  EventLine index text ∈ fst (execute File Payload Machine new_machine ApplyEvent
           Status_Pretty textFormat malformed_log NewReader a) ->
  exists event,
    (0 < index)%N
    /\ log_events Payload reader !! (N.to_nat index - 1)%nat = Some event
    /\ excludedByNodeID (NodeId Payload event) (nodeIDs File a) = false
    /\ textFormat event (negb (verboseText File a)) = inl text
    /\ (index ∈ (list_to_set (Go.elems (statusIndices File a)) : gset N)
        \/ shouldPrint File Payload a event = Go.Ok true).
Proof.
  intros Hreader Hin. unfold execute in Hin. rewrite Hreader in Hin.
  destruct (loop_lines a (list_to_set (Go.elems (statusIndices File a)))
              (log_events Payload reader) (log_error Payload reader)
              0%N ∅ []) as (extra & Hout & Hlines).
  destruct (loop a _ _ _ _ _ _) as [out [stop|nodes]]; simpl in Hout; subst out.
  - simpl in Hin. rewrite Forall_forall in Hlines.
    destruct (Hlines _ Hin) as (k & event & -> & Hk & Hrest).
    exists event. split; [lia|].
    replace (N.to_nat (0 + 1 + N.of_nat k) - 1)%nat with k by lia. done.
  - assert (EventLine index text ∈ extra) as Hin'.
    { destruct (interactive File a); [|exact Hin].
      destruct (closing_lines nodes
                  match nodeIDs File a with
                  | Some ids => ids
                  | None => merge_sort N.le (elements (dom nodes))
                  end extra) as (closing & Hclosing & Honly).
      rewrite Hclosing in Hin. apply elem_of_app in Hin as [Hin|Hin]; [done|].
      rewrite Forall_forall in Honly. by destruct (Honly _ Hin). }
    rewrite Forall_forall in Hlines.
    destruct (Hlines _ Hin') as (k & event & -> & Hk & Hrest).
    exists event. split; [lia|].
    replace (N.to_nat (0 + 1 + N.of_nat k) - 1)%nat with k by lia. done.
Qed.

Lemma loop_without_machines a marks events err i0 nodes out0
    (fmt : RecordedEvent Payload -> string) :
  interactive File a = false ->
  (forall event, event ∈ events ->
     textFormat event (negb (verboseText File a)) = inl (fmt event)) ->
  (forall event msg, event ∈ events ->
     excludedByNodeID (NodeId Payload event) (nodeIDs File a) = false ->
     shouldPrint File Payload a event <> Go.Panic msg) ->
  snd (loop a marks events err i0 nodes out0)
    = match err with
      | None => inr nodes
      | Some e => inl (Returned (Some ("failed reading input: " +:+ e)))
      end
  /\ (forall o, o ∈ out0 -> o ∈ fst (loop a marks events err i0 nodes out0))
  /\ (forall k event,
        events !! k = Some event ->
        excludedByNodeID (NodeId Payload event) (nodeIDs File a) = false ->
        ((i0 + 1 + N.of_nat k)%N ∈ marks
         \/ shouldPrint File Payload a event = Go.Ok true) ->
        EventLine (i0 + 1 + N.of_nat k) (fmt event)
          ∈ fst (loop a marks events err i0 nodes out0)).
Proof.
  intros Hbatch. revert i0 out0.
  induction events as [|event events IH]; intros i0 out0 Htext Hprint.
  - simpl. destruct err; simpl; (split; [done|]); (split; [done|]);
      intros k ev Hk; by rewrite lookup_nil in Hk.
  - assert (forall out,
              (forall o, o ∈ out0 -> o ∈ out) ->
              (excludedByNodeID (NodeId Payload event) (nodeIDs File a) = false ->
               ((i0 + 1)%N ∈ marks
                \/ shouldPrint File Payload a event = Go.Ok true) ->
               EventLine (i0 + 1) (fmt event) ∈ out) ->
              snd (loop a marks events err (i0 + 1) nodes out)
                = match err with
                  | None => inr nodes
                  | Some e =>
                      inl (Returned (Some ("failed reading input: " +:+ e)))
                  end
              /\ (forall o, o ∈ out0 ->
                    o ∈ fst (loop a marks events err (i0 + 1) nodes out))
              /\ (forall k ev,
                    (event :: events) !! k = Some ev ->
                    excludedByNodeID (NodeId Payload ev) (nodeIDs File a)
                      = false ->
                    ((i0 + 1 + N.of_nat k)%N ∈ marks
                     \/ shouldPrint File Payload a ev = Go.Ok true) ->
                    EventLine (i0 + 1 + N.of_nat k) (fmt ev)
                      ∈ fst (loop a marks events err (i0 + 1) nodes out)))
      as Hrec.
    { intros out Hkeep Hhead.
      destruct (IH (i0 + 1)%N out) as (Hend & Hold & Hnew).
      - intros ev Hev. apply Htext. by right.
      - intros ev msg Hev. apply Hprint. by right.
      - split; [done|]. split; [by intros o Ho; apply Hold, Hkeep|].
        intros [|k] ev Hk Hex Hsel; simpl in Hk.
        + injection Hk as <-. apply Hold.
          replace (i0 + 1 + N.of_nat 0)%N with (i0 + 1)%N in * by lia.
          by apply Hhead.
        + replace (i0 + 1 + N.of_nat (S k))%N
            with (i0 + 1 + 1 + N.of_nat k)%N in * by lia.
          by apply Hnew. }
    simpl.
    destruct (excludedByNodeID (NodeId Payload event) (nodeIDs File a)) eqn:Hex.
    { apply Hrec; [done|]. intros [=]. }
    rewrite (Htext event) by (by left).
    case_bool_decide as Hstatus.
    + rewrite Hbatch. apply Hrec.
      * intros o Ho. apply elem_of_app. by left.
      * intros _ _. apply elem_of_app. right. by apply list_elem_of_singleton.
    + destruct (shouldPrint File Payload a event) as [[|]|msg] eqn:Hp.
      * rewrite Hbatch. apply Hrec.
        -- intros o Ho. apply elem_of_app. by left.
        -- intros _ _. apply elem_of_app. right. by apply list_elem_of_singleton.
      * rewrite Hbatch. apply Hrec; [done|].
        intros _ [?|?]; [done|discriminate].
      * exfalso. eapply Hprint; [by left|done|done].
Qed.

(** X24: without --interactive a run over well-formed events cannot
    panic and leaves no selected event out: when every event can be
    formatted and [shouldPrint] panics on none that passes the node filter,
    [execute] returns nil at the end of the log (or the read error that
    ended it), and it has written the line of every event that passes the
    node filter and is accepted by [shouldPrint] or sits at a status
    index. *)
Theorem selected_events_are_printed a reader
    (fmt : RecordedEvent Payload -> string) :
  NewReader (input File a) = inl reader ->
  interactive File a = false ->
  (forall event, event ∈ log_events Payload reader ->
     textFormat event (negb (verboseText File a)) = inl (fmt event)) ->
  (forall event msg, event ∈ log_events Payload reader ->
     excludedByNodeID (NodeId Payload event) (nodeIDs File a) = false ->
     shouldPrint File Payload a event <> Go.Panic msg) ->
  snd (execute File Payload Machine new_machine ApplyEvent
           Status_Pretty textFormat malformed_log NewReader a)
    = Returned match log_error Payload reader with
               | None => None
               | Some e => Some ("failed reading input: " +:+ e)
               end
  /\ (forall k event,
        log_events Payload reader !! k = Some event ->
        excludedByNodeID (NodeId Payload event) (nodeIDs File a) = false ->
        ((N.of_nat k + 1)%N
           ∈ (list_to_set (Go.elems (statusIndices File a)) : gset N)
         \/ shouldPrint File Payload a event = Go.Ok true) ->
        EventLine (N.of_nat k + 1) (fmt event) ∈ fst (execute File Payload Machine new_machine ApplyEvent
           Status_Pretty textFormat malformed_log NewReader a)).
Proof.
  intros Hreader Hbatch Htext Hprint.
  destruct (loop_without_machines a
              (list_to_set (Go.elems (statusIndices File a)))
              (log_events Payload reader) (log_error Payload reader)
              0%N ∅ [] fmt Hbatch Htext Hprint) as (Hend & _ & Hlines).
  unfold execute. rewrite Hreader, Hbatch.
  destruct (loop a _ _ _ _ _ _) as [out [stop|nodes]]; simpl in *.
  - split.
    + destruct (log_error Payload reader); [by injection Hend as ->|done].
    + intros k event Hk Hex Hsel.
      replace (N.of_nat k + 1)%N with (0 + 1 + N.of_nat k)%N in * by lia.
      by apply Hlines.
  - split.
    + by destruct (log_error Payload reader).
    + intros k event Hk Hex Hsel.
      replace (N.of_nat k + 1)%N with (0 + 1 + N.of_nat k)%N in * by lia.
      by apply Hlines.
Qed.

Lemma apply_keeps_absent nodes nodes' event id :
  nodes !! id = None ->
  (NodeId Payload event = id ->
   StateEvent_type Payload (RecordedEvent_StateEvent Payload event)
     <> Some StateEvent_Initialize) ->
  apply Payload Machine new_machine ApplyEvent malformed_log nodes event
    = Go.Ok nodes' ->
  nodes' !! id = None.
Proof.
  intros Habsent Hinit. unfold apply.
  destruct (decide (NodeId Payload event = id)) as [Hid|Hid].
  - specialize (Hinit Hid). rewrite Hid, Habsent.
    destruct (StateEvent_type Payload (RecordedEvent_StateEvent Payload event))
      as [[]|]; try done.
  - assert (forall (node : Machine) (ns : gmap N Machine),
              ns !! id = None ->
              match ApplyEvent node (RecordedEvent_StateEvent Payload event) with
              | Go.Ok node' => Go.Ok (<[NodeId Payload event := node']> ns)
              | Go.Panic msg => Go.Panic msg
              end = Go.Ok nodes' ->
              nodes' !! id = None) as Hlater.
    { intros node ns Hns. destruct (ApplyEvent _ _); [|done].
      intros [= <-]. by rewrite lookup_insert_ne. }
    destruct (StateEvent_type Payload (RecordedEvent_StateEvent Payload event))
      as [[]|]; simpl;
      try (destruct (nodes !! NodeId Payload event) as [node|];
           [by apply Hlater | done]).
    apply Hlater. by rewrite lookup_insert_ne, lookup_delete_ne.
Qed.

Lemma loop_keeps_absent a marks events err i0 nodes out0 id :
  nodes !! id = None ->
  (forall event, event ∈ events -> NodeId Payload event = id ->
     StateEvent_type Payload (RecordedEvent_StateEvent Payload event)
       <> Some StateEvent_Initialize) ->
  match snd (loop a marks events err i0 nodes out0) with
  | inr nodes' => nodes' !! id = None
  | inl stop => stop <> Returned None
  end.
Proof.
  revert i0 nodes out0.
  induction events as [|event events IH]; intros i0 nodes out0 Habsent Hinit.
  - simpl. by destruct err.
  - assert (forall event', event' ∈ events -> NodeId Payload event' = id ->
              StateEvent_type Payload (RecordedEvent_StateEvent Payload event')
                <> Some StateEvent_Initialize) as Hrest.
    { intros ev Hev. apply Hinit. by right. }
    assert (forall nodes',
              apply Payload Machine new_machine ApplyEvent malformed_log
                nodes event = Go.Ok nodes' -> nodes' !! id = None) as Happly.
    { intros nodes'. apply apply_keeps_absent; [done|]. apply Hinit. by left. }
    assert (forall nodes' out,
              nodes' !! id = None ->
              match snd (loop a marks events err (i0 + 1) nodes' out) with
              | inr nodes'' => nodes'' !! id = None
              | inl stop => stop <> Returned None
              end) as Hrec.
    { intros nodes' out Hnodes'. by apply IH. }
    simpl.
    destruct (excludedByNodeID (NodeId Payload event) (nodeIDs File a));
      [by apply Hrec|].
    case_bool_decide as Hstatus.
    + destruct (textFormat event (negb (verboseText File a))); [|done].
      destruct (interactive File a); [|by apply Hrec].
      destruct (apply _ _ _ _ _ _ _) as [nodes'|msg] eqn:Hap; [|done].
      destruct (nodes' !! NodeId Payload event); [|done].
      apply Hrec. by apply Happly.
    + destruct (shouldPrint File Payload a event) as [[|]|msg]; [| |done].
      * destruct (textFormat event (negb (verboseText File a))); [|done].
        destruct (interactive File a); [|by apply Hrec].
        destruct (apply _ _ _ _ _ _ _) as [nodes'|msg] eqn:Hap; [|done].
        apply Hrec. by apply Happly.
      * destruct (interactive File a); [|by apply Hrec].
        destruct (apply _ _ _ _ _ _ _) as [nodes'|msg] eqn:Hap; [|done].
        apply Hrec. by apply Happly.
Qed.

Lemma closing_needs_machine nodes ids out id :
  id ∈ ids ->
  nodes !! id = None ->
  snd (execute_closing Machine nodes ids out) = Panicked nil_dereference.
Proof.
  revert out. induction ids as [|id' ids IH]; intros out Hin Habsent.
  - by apply elem_of_nil in Hin.
  - simpl. apply elem_of_cons in Hin as [<-|Hin]; [by rewrite Habsent|].
    destruct (nodes !! id'); [by apply IH | done].
Qed.

(** X25: with --interactive and --nodeID, naming a node for which the log
    holds no Initialize event cannot end well: the run either stops on an
    error or panics, at the latest in the closing lines, which read the
    machine of every named node. *)
Theorem uninitialized_node_never_completes a ids id :
  interactive File a = true ->
  nodeIDs File a = Some ids ->
  id ∈ ids ->
  (forall reader event,
     NewReader (input File a) = inl reader ->
     event ∈ log_events Payload reader ->
     NodeId Payload event = id ->
     StateEvent_type Payload (RecordedEvent_StateEvent Payload event)
       <> Some StateEvent_Initialize) ->
  snd (execute File Payload Machine new_machine ApplyEvent
           Status_Pretty textFormat malformed_log NewReader a) <> Returned None.
Proof.
  intros Hinteractive Hids Hid Hinit. unfold execute.
  destruct (NewReader (input File a)) as [reader|err] eqn:Hreader; [|done].
  pose proof (loop_keeps_absent a
                (list_to_set (Go.elems (statusIndices File a)))
                (log_events Payload reader) (log_error Payload reader)
                0%N ∅ [] id (lookup_empty id) (fun ev => Hinit reader ev eq_refl))
    as Hloop.
  destruct (loop a _ _ _ _ _ _) as [out [stop|nodes]]; simpl in *; [done|].
  rewrite Hinteractive, Hids.
  by rewrite (closing_needs_machine nodes ids out id Hid Hloop).
Qed.

End execute.
Lemma printed_lines_come_from_the_log_witness :
  exists event,
    (0 < 3)%N
    /\ log_events unit demo_log !! (N.to_nat 3 - 1)%nat = Some event
    /\ excludedByNodeID (NodeId unit event) (nodeIDs unit only_prepare_steps)
       = false
    /\ (inl (demo_text event) : string + string) = inl "event"
    /\ (3%N ∈ (list_to_set (Go.elems (statusIndices unit only_prepare_steps))
               : gset N)
        \/ shouldPrint unit unit only_prepare_steps event = Go.Ok true).
Proof.
  apply (printed_lines_come_from_the_log unit unit unit
           (fun _ => tt) (fun m _ => Go.Ok m) (fun _ => "status")
           (fun event _ => inl (demo_text event)) (fun _ _ => "Malformed log.")
           (fun _ => inl demo_log) only_prepare_steps demo_log 3 "event").
  - reflexivity.
  - vm_compute. apply list_elem_of_here.
Defined.

Lemma selected_events_are_printed_witness :
  snd (demo_execute only_prepare_steps) = Returned None.
Proof.
  refine (proj1 (selected_events_are_printed unit unit unit
                   (fun _ => tt) (fun m _ => Go.Ok m) (fun _ => "status")
                   (fun event _ => inl (demo_text event))
                   (fun _ _ => "Malformed log.")
                   (fun _ => inl demo_log) only_prepare_steps demo_log
                   demo_text eq_refl eq_refl _ _)).
  - intros event _. reflexivity.
  - intros event msg Hin _.
    apply elem_of_cons in Hin as [->|Hin]; [discriminate|].
    apply elem_of_cons in Hin as [->|Hin]; [discriminate|].
    apply elem_of_cons in Hin as [->|Hin]; [discriminate|].
    exact (False_ind _ (proj1 (elem_of_nil event) Hin)).
Defined.

Lemma uninitialized_node_never_completes_witness :
  snd (demo_execute play_two_nodes) <> Returned None.
Proof.
  apply (uninitialized_node_never_completes unit unit unit
           (fun _ => tt) (fun m _ => Go.Ok m) (fun _ => "status")
           (fun event _ => inl (demo_text event)) (fun _ _ => "Malformed log.")
           (fun _ => inl demo_log) play_two_nodes [1%N; 7%N] 7%N eq_refl eq_refl).
  - apply list_elem_of_further, list_elem_of_here.
  - intros reader event [= <-] Hin Hid.
    apply elem_of_cons in Hin as [->|Hin]; [discriminate|].
    apply elem_of_cons in Hin as [->|Hin]; [discriminate|].
    apply elem_of_cons in Hin as [->|Hin]; [discriminate|].
    exact (False_ind _ (proj1 (elem_of_nil event) Hin)).
Defined.

(** The run of the witness above reads the whole log and panics in the
    closing lines, after the line of node 1. *)
Example play_two_nodes_panics_at_the_end :
  demo_execute play_two_nodes
  = ([EventLine 1 "event"; EventLine 2 "event"; EventLine 3 "event";
      Completed 1], Panicked nil_dereference).
Proof. vm_compute. reflexivity. Qed.

End mircatPlayback.
